(** * The X-Forwarded-Email authentication middleware of the Flowise server

    A shallow embedding of
    - [packages/server/src/services/flowise-user/index.ts]
      ([FlowiseUserService.findOrCreateUserByEmail]),
    - the [FlowiseUser] entity, and
    - the "Simplified Authentication Middleware" installed by [App.config]
      in [packages/server/src/index.ts],
    followed by the properties of the middleware and of the identity store. *)

From Stdlib Require Import String Ascii List ZArith Bool Lia.
From stdpp Require Import base option list strings gmap pretty.
Import ListNotations.

Local Open Scope string_scope.
Local Open Scope list_scope.

(** ** Regular expressions made of literal characters

    Both patterns of the middleware, [/\/api\/v1\//i] and [/\/api\/v1\//], are a
    plain sequence of characters without anchors, so [RegExp.prototype.test]
    is a search for the source text at any position of the subject.  Neither
    pattern has the [g] or [y] flag: [test] keeps no [lastIndex] between
    calls. *)

Module RegExp.

Record t := { source : string; ignoreCase : bool }.

(** [Canonicalize] of ECMAScript for the [i] flag without [u]: a character
    is compared through its upper-case form.  A code unit of 128 or more
    never canonicalizes to an ASCII unit, so on the 8-bit characters used
    here only [a]..[z] fold. *)
Definition canonicalize (c : ascii) : ascii :=
  let n := nat_of_ascii c in
  if (97 <=? n)%nat && (n <=? 122)%nat then ascii_of_nat (n - 32) else c.

Definition char_matches (ic : bool) (p c : ascii) : bool :=
  if ic then Ascii.eqb (canonicalize p) (canonicalize c) else Ascii.eqb p c.

(** The pattern matches at the start of the subject. *)
Fixpoint matches_here (ic : bool) (pat s : string) : bool :=
  match pat with
  | EmptyString => true
  | String p pat' =>
      match s with
      | EmptyString => false
      | String c s' => char_matches ic p c && matches_here ic pat' s'
      end
  end.

(** The pattern matches at some position of the subject. *)
Fixpoint search (ic : bool) (pat s : string) : bool :=
  matches_here ic pat s ||
  match s with
  | EmptyString => false
  | String _ s' => search ic pat s'
  end.

Definition test (r : t) (s : string) : bool :=
  search (ignoreCase r) (source r) s.

End RegExp.

Definition URL_CASE_INSENSITIVE_REGEX : RegExp.t :=
  {| RegExp.source := "/api/v1/"; RegExp.ignoreCase := true |}.

Definition URL_CASE_SENSITIVE_REGEX : RegExp.t :=
  {| RegExp.source := "/api/v1/"; RegExp.ignoreCase := false |}.

(** ** Errors and completions

    An awaited call either returns a value or throws. *)

Inductive Error :=
  | QueryFailedError (message : string)
  | DriverError (message : string).

Inductive Completion (A : Type) :=
  | Return (a : A)
  | Throw (e : Error).
Arguments Return {A} a.
Arguments Throw {A} e.

(** State passing with exceptions: the shape of every [async] function of
    the model. *)
Definition M (S A : Type) : Type := S -> Completion A * S.

Definition ret {S A} (a : A) : M S A := fun s => (Return a, s).

Definition bind {S A B} (m : M S A) (k : A -> M S B) : M S B :=
  fun s =>
    match m s with
    | (Return a, s') => k a s'
    | (Throw e, s') => (Throw e, s')
    end.

Definition try_catch {S A} (m : M S A) (handler : Error -> M S A) : M S A :=
  fun s =>
    match m s with
    | (Return a, s') => (Return a, s')
    | (Throw e, s') => handler e s'
    end.

Notation "'let*' x ':=' m 'in' k" := (bind m (fun x => k))
  (at level 10, x name, m at level 100, k at level 200).

(** ** The [FlowiseUser] entity *)

Record FlowiseUser := {
  id : string;            (* @PrimaryGeneratedColumn('uuid') *)
  email : string;         (* @Column({ unique: true }) *)
  createdDate : Z;        (* @CreateDateColumn() *)
  updatedDate : Z         (* @UpdateDateColumn() *)
}.

(** [new FlowiseUser()] followed by [newUser.email = email]: the entity as it
    is handed to [save], its generated columns still unset. *)
Record FlowiseUserDraft := { draft_email : string }.

(** The part of TypeORM's [Repository<FlowiseUser>] the service uses.  [W] is
    the state of the storage behind it. *)
Class Repository (W : Type) := {
  findOneBy : string -> M W (option FlowiseUser);
  save : FlowiseUserDraft -> M W FlowiseUser
}.

(** Repositories that answer the query they were asked: a row found for an
    email carries that email (the column is compared exactly, not under a
    case-folding collation), and a saved entity keeps the email it was given. *)

Class LawfulRepository (W : Type) `{Repository W} := {
  findOneBy_email : forall e w u w',
    findOneBy e w = (Return (Some u), w') -> email u = e;
  save_email : forall d w u w',
    save d w = (Return u, w') -> email u = draft_email d
}.

(** ** [FlowiseUserService] *)

Section Service.
Context {W : Type} `{Repository W}.

Definition findOrCreateUserByEmail (email : string) : M W FlowiseUser :=
  let* user := findOneBy email in
  match user with
  | Some user => ret user
  | None =>
      let newUser := {| draft_email := email |} in
      let* user := save newUser in
      ret user
  end.

(** *** Concurrent calls

    An [async] call runs until its next [await]; calls in flight (in one
    process or in several) interleave at those points.  A call is therefore
    suspended before its [findOneBy] (line 15), or before its [save]
    (line 22), or it has settled.  Resuming a call hands it the answer of
    the repository to the query it waits for.  What the repository does
    between being asked and answering (TypeORM's [save] is several awaited
    statements of its own) is the repository's: [W] and its two operations
    are arbitrary here. *)
Inductive Task :=
  | AwaitFindOneBy (email : string)
  | AwaitSave (email : string)
  | Settled (r : Completion FlowiseUser).

Definition task_step (t : Task) (w : W) : Task * W :=
  match t with
  | AwaitFindOneBy email =>
      match findOneBy email w with
      | (Return (Some user), w') => (Settled (Return user), w')
      | (Return None, w') => (AwaitSave email, w')
      | (Throw e, w') => (Settled (Throw e), w')
      end
  | AwaitSave email =>
      match save {| draft_email := email |} w with
      | (Return user, w') => (Settled (Return user), w')
      | (Throw e, w') => (Settled (Throw e), w')
      end
  | Settled r => (Settled r, w)
  end.

(** The scheduler resumes the call at index [i]. *)
Definition resume (i : nat) (sys : list Task * W) : list Task * W :=
  match fst sys !! i with
  | Some t =>
      let '(t', w') := task_step t (snd sys) in
      (<[i := t']> (fst sys), w')
  | None => sys
  end.

Definition run_schedule (sched : list nat) (sys : list Task * W)
  : list Task * W :=
  fold_left (fun sys i => resume i sys) sched sys.

Definition settled (t : Task) : bool :=
  match t with Settled _ => true | _ => false end.

(** How many more times a call has to be resumed before it settles, at
    most. *)
Definition awaits_left (t : Task) : nat :=
  match t with
  | AwaitFindOneBy _ => 2
  | AwaitSave _ => 1
  | Settled _ => 0
  end.

Definition awaits_left_at (ts : list Task) (j : nat) : nat :=
  from_option awaits_left 0 (ts !! j).

End Service.

(** ** A relational table behind the repository

    The [flowise_user] table with its unique [email] column.  The generator
    of primary keys and the clock of the date columns are oracles of the
    storage, read at the index [tick]; generated keys are taken to be
    collision free, so the only constraint that rejects an insert is the
    unique one on [email].  A rejected insert leaves the table as it was.
    An insert is one step of the table, which is how calls served one after
    another see it; what is said of calls that overlap is said of any
    repository and does not lean on this. *)

Record Db := {
  rows : list FlowiseUser;
  gen_uuid : nat -> string;
  clock : nat -> Z;
  tick : nat
}.

(** The error a rejected insert is answered with: TypeORM's
    [QueryFailedError] around the message of the driver, here that of
    sqlite, the database Flowise runs on unless it is configured
    otherwise. *)
Definition unique_violation : Error :=
  QueryFailedError "SQLITE_CONSTRAINT: UNIQUE constraint failed: flowise_user.email".

Definition has_email (e : string) (u : FlowiseUser) : bool :=
  String.eqb (email u) e.

Definition db_findOneBy (e : string) : M Db (option FlowiseUser) :=
  fun db => (Return (List.find (has_email e) (rows db)), db).

(** The row an insert writes, and the table after it. *)
Definition inserted_row (e : string) (db : Db) : FlowiseUser :=
  {| id := gen_uuid db (tick db);
     email := e;
     createdDate := clock db (tick db);
     updatedDate := clock db (tick db) |}.

Definition after_insert (e : string) (db : Db) : Db :=
  {| rows := rows db ++ [inserted_row e db];
     gen_uuid := gen_uuid db;
     clock := clock db;
     tick := S (tick db) |}.

Definition db_save (d : FlowiseUserDraft) : M Db FlowiseUser :=
  fun db =>
    if existsb (has_email (draft_email d)) (rows db) then
      (Throw unique_violation, db)
    else
      (Return (inserted_row (draft_email d) db), after_insert (draft_email d) db).

#[export] Instance Db_Repository : Repository Db :=
  {| findOneBy := db_findOneBy; save := db_save |}.

(** At most one row per email. *)
Definition unique_emails (db : Db) : Prop := List.NoDup (map email (rows db)).

(** The rows that carry a given email. *)
Definition records_of (e : string) (db : Db) : list FlowiseUser :=
  filter (fun u => email u = e) (rows db).

(** ** The request and the identity attached to it *)

(** [Express.User]: [LoggedInUser] extended with [isAuthenticatedByHeader].
    The declaration of [LoggedInUser] lives in [enterprise/Interface.Enterprise];
    the fields are those of the object literal the middleware builds, and the two
    array fields only ever hold the empty array here. *)
Record User := {
  user_id : string;
  user_email : string;
  isAuthenticatedByHeader : option bool;
  name : string;
  roleId : string;
  activeOrganizationId : string;
  activeOrganizationSubscriptionId : string;
  activeOrganizationCustomerId : string;
  activeOrganizationProductId : string;
  isOrganizationAdmin : bool;
  activeWorkspaceId : string;
  activeWorkspace : string;
  assignedWorkspaces : list string;
  isApiKeyValidated : bool;
  permissions : list string;
  features : gmap string string;
  ssoRefreshToken : option string;
  ssoToken : option string;
  ssoProvider : option string
}.

(** [req.headers] is keyed by lower-cased header names; a header that was
    not sent reads as [undefined]. *)
Record Request := {
  path : string;
  headers : gmap string string;
  user : option User
}.

Definition set_user (req : Request) (u : User) : Request :=
  {| path := path req; headers := headers req; user := Some u |}.

(** What the middleware does with the request: hand it to the next handler,
    or answer with [res.status(code).json({ error })]. *)
Inductive Outcome :=
  | Next
  | Json (status : nat) (error : string).

(** Calls that leave the middleware, in the order they are made.  [ValidateAPIKey]
    is the bearer-token check of [utils/validateKey], whose import the server
    dropped. *)
Inductive Call :=
  | FindOrCreateUserByEmail (email : string)
  | ValidateAPIKey (authorization : option string)
  | LoggerError (message : string) (error : Error).

Record Env (W : Type) := {
  storage : W;
  calls : list Call
}.
Arguments storage {W} _.
Arguments calls {W} _.

Definition record {W} (c : Call) : M (Env W) unit :=
  fun env => (Return tt, {| storage := storage env; calls := calls env ++ [c] |}).

(** Runs a storage computation inside the middleware. *)
Definition on_storage {W A} (m : M W A) : M (Env W) A :=
  fun env =>
    let '(r, w') := m (storage env) in
    (r, {| storage := w'; calls := calls env |}).

(** A JavaScript string in a condition: [undefined] and the empty string are
    falsy. *)
Definition truthy (s : option string) : option string :=
  match s with
  | Some "" => None
  | Some s => Some s
  | None => None
  end.

Section Middleware.
Context {W : Type} `{Repository W}.

(** [WHITELIST_URLS] of [utils/constants], a file outside this excerpt. *)
Variable WHITELIST_URLS : list string.

Definition flowiseUserService_findOrCreateUserByEmail (email : string)
  : M (Env W) FlowiseUser :=
  let* _ := record (FindOrCreateUserByEmail email) in
  on_storage (findOrCreateUserByEmail email).

Definition loggedInUserShape (flowiseDbUser : FlowiseUser) : User :=
  {| user_id := id flowiseDbUser;
     user_email := email flowiseDbUser;
     isAuthenticatedByHeader := Some true;
     name := email flowiseDbUser;
     roleId := "";
     activeOrganizationId := "";
     activeOrganizationSubscriptionId := "";
     activeOrganizationCustomerId := "";
     activeOrganizationProductId := "";
     isOrganizationAdmin := false;
     activeWorkspaceId := "";
     activeWorkspace := "";
     assignedWorkspaces := [];
     isApiKeyValidated := false;
     permissions := [];
     features := empty;
     ssoRefreshToken := None;
     ssoToken := None;
     ssoProvider := None |}.

Definition isWhitelisted (req : Request) : bool :=
  existsb (fun url => String.prefix url (path req)) WHITELIST_URLS.

(** The middleware returns the request as it leaves it, together with
    what was done with it. *)
Definition middleware (req : Request) : M (Env W) (Request * Outcome) :=
  if RegExp.test URL_CASE_INSENSITIVE_REGEX (path req) then
    if RegExp.test URL_CASE_SENSITIVE_REGEX (path req) then
      if isWhitelisted req then
        ret (req, Next)
      else
        match truthy (headers req !! "x-forwarded-email") with
        | Some forwardedEmail =>
            try_catch
              (let* flowiseDbUser :=
                 flowiseUserService_findOrCreateUserByEmail forwardedEmail in
               ret (set_user req (loggedInUserShape flowiseDbUser), Next))
              (fun error =>
                 let* _ := record
                   (LoggerError "Error during X-Forwarded-Email authentication:"
                                error) in
                 ret (req, Json 500 "Internal Server Error during authentication"))
        | None =>
            ret (req, Json 401 "Unauthorized: X-Forwarded-Email header is required")
        end
    else
      ret (req, Json 401 "Unauthorized Access - Invalid Path Structure")
  else
    ret (req, Next).

End Middleware.

(** ** What the calls ask of the repository

    The queries the repository answered, in the order of the answers, each
    with its answer.  [Traced] keeps this record for any repository: the
    repository behind it runs as it is, so nothing is assumed of what it
    does with its storage or of how it answers calls that overlap. *)
Inductive Query :=
  | FindOneBy (email : string) (answer : Completion (option FlowiseUser))
  | Save (entity : FlowiseUserDraft) (answer : Completion FlowiseUser).

Record Traced (W : Type) := {
  inner : W;
  queries : list Query
}.
Arguments inner {W} _.
Arguments queries {W} _.

Definition traced {W A} (m : M W A) (q : Completion A -> Query) : M (Traced W) A :=
  fun t =>
    let '(r, w') := m (inner t) in
    (r, {| inner := w'; queries := queries t ++ [q r] |}).

#[export] Instance Traced_Repository {W : Type} `{Repository W}
  : Repository (Traced W) :=
  {| findOneBy := fun email => traced (findOneBy (W := W) email) (FindOneBy email);
     save := fun entity => traced (save (W := W) entity) (Save entity) |}.

Definition is_FindOneBy (q : Query) : bool :=
  match q with FindOneBy _ _ => true | _ => false end.

Definition is_Save (q : Query) : bool :=
  match q with Save _ _ => true | _ => false end.

(** A lookup that was answered with [null]. *)
Definition found_nothing (q : Query) : bool :=
  match q with FindOneBy _ (Return None) => true | _ => false end.

(** The call got the answer to its [findOneBy]. *)
Definition past_findOneBy (t : Task) : bool :=
  match t with AwaitFindOneBy _ => false | _ => true end.

Definition awaiting_save (t : Task) : bool :=
  match t with AwaitSave _ => true | _ => false end.

(** [r] is what the repository answered one of the calls for [e]: the
    answer to a [save], the row a [findOneBy] found, or the error a
    [findOneBy] failed with. *)
Definition answered_by (e : string) (log : list Query)
    (r : Completion FlowiseUser) : Prop :=
  In (Save {| draft_email := e |} r) log \/
  (exists u, r = Return u /\ In (FindOneBy e (Return (Some u))) log) \/
  (exists err, r = Throw err /\ In (FindOneBy e (Throw err)) log).

(** What a call settled with, and the answers of the repository that settle
    a call: every answer but the [null] of a lookup, which leads on to the
    [save]. *)
Definition settled_with (t : Task) : option (Completion FlowiseUser) :=
  match t with Settled r => Some r | _ => None end.

Definition final_answer (q : Query) : option (Completion FlowiseUser) :=
  match q with
  | FindOneBy _ (Return (Some user)) => Some (Return user)
  | FindOneBy _ (Return None) => None
  | FindOneBy _ (Throw err) => Some (Throw err)
  | Save _ answer => Some answer
  end.

(** The books of a set of concurrent calls for [e] balance: as many lookups
    were answered as calls got past their lookup; every lookup answered with
    [null] led to one [save], answered or still awaited; what the calls
    settled with is, answer for answer, what the repository answered; a call
    that settled did so with an answer to a query for [e]; and every answer
    to a [save] is what some call settled with. *)
Definition accounted {W : Type} (e : string) (sys : list Task * Traced W) : Prop :=
  let log := queries (snd sys) in
  length (List.filter is_FindOneBy log) =
    length (List.filter past_findOneBy (fst sys)) /\
  length (List.filter is_Save log) + length (List.filter awaiting_save (fst sys)) =
    length (List.filter found_nothing log) /\
  Permutation (omap settled_with (fst sys)) (omap final_answer log) /\
  Forall (fun t => t = AwaitFindOneBy e \/ t = AwaitSave e \/
                   exists r, t = Settled r /\ answered_by e log r) (fst sys) /\
  (forall r, In (Save {| draft_email := e |} r) log ->
             exists i, fst sys !! i = Some (Settled r)).

(** ** Calls that do not overlap

    The schedule that runs the calls listed in [order] one after another,
    each resumed twice in a row; and the states such a schedule passes
    through between two calls: every call is either still to start or has
    returned the row that currently holds the email. *)
Definition serial (order : list nat) : list nat :=
  flat_map (fun i => [i; i]) order.

Definition calm (e : string) (sys : list Task * Db) : Prop :=
  Forall (fun t => t = AwaitFindOneBy e \/
                   exists u, t = Settled (Return u) /\
                             List.find (has_email e) (rows (snd sys)) = Some u)
         (fst sys).

(** The run ends with the outcome [o]. *)
Definition answers {W : Type} `{Repository W}
    (wl : list string) (req : Request) (env : Env W) (o : Outcome) : Prop :=
  exists req' env', middleware wl req env = (Return (req', o), env').

(** What the handlers behind the middleware observe of a run: the identity on the
    request and whether the request went on or was answered. *)
Definition decision (r : Completion (Request * Outcome))
  : Completion (option User * Outcome) :=
  match r with
  | Return (req, o) => Return (user req, o)
  | Throw e => Throw e
  end.

Definition is_ValidateAPIKey (c : Call) : bool :=
  match c with ValidateAPIKey _ => true | _ => false end.

(** The run handed the request on. *)
Definition allowed (r : Completion (Request * Outcome)) : Prop :=
  exists req', r = Return (req', Next).

(** The request leaves the middleware with an identity on it. *)
Definition identity_attached (r : Completion (Request * Outcome)) : Prop :=
  exists req' o u, r = Return (req', o) /\ user req' = Some u.

(** The one transition on which the middleware writes [req.user]: a protected
    path, a usable header, and a service call that returned [u]. *)
Definition allows_with_identity {W : Type} `{Repository W}
    (wl : list string) (req : Request) (env : Env W) (u : FlowiseUser) : Prop :=
  RegExp.test URL_CASE_SENSITIVE_REGEX (path req) = true /\
  isWhitelisted wl req = false /\
  exists e,
    truthy (headers req !! "x-forwarded-email") = Some e /\
    fst (findOrCreateUserByEmail e (storage env)) = Return u.

(** ** Process start-up and shutdown

    [App.initDatabase], [App.config], [App.stopApp], [start] and
    [getInstance] of [packages/server/src/index.ts].  Everything these
    functions call lives outside the excerpt, so each call is an operation
    whose behaviour the environment decides; what is modelled is the control
    flow around the calls: the order, the [await]s, the assignments to the
    fields of the [App], the reads of fields that may still be [undefined],
    the [try]/[catch] blocks and what is logged.  A call that returns is
    taken to return an object, and the calls of the logger to return. *)

Module Lifecycle.

(** *** [parseInt(string, 10)]

    Strings are over 8-bit code units, as for paths, so of the white space
    of ECMAScript the characters below 256 are the ones that occur. *)

(** A Number that came out of [parseInt]: [NaN], an integer that a double
    holds exactly, or the double nearest to an integer beyond 2^53. *)
Inductive Number :=
  | NaN
  | Finite (z : Z)
  | Rounded (z : Z).

Definition is_StrWhiteSpaceChar (c : ascii) : bool :=
  let n := nat_of_ascii c in
  (n =? 9)%nat || (n =? 10)%nat || (n =? 11)%nat || (n =? 12)%nat ||
  (n =? 13)%nat || (n =? 32)%nat || (n =? 160)%nat.

Fixpoint trim_start (s : string) : string :=
  match s with
  | String c s' => if is_StrWhiteSpaceChar c then trim_start s' else s
  | EmptyString => EmptyString
  end.

Definition digit (c : ascii) : option Z :=
  let n := nat_of_ascii c in
  if (48 <=? n)%nat && (n <=? 57)%nat then Some (Z.of_nat (n - 48)) else None.

(** The radix-10 digits in front of the first character that is not one. *)
Fixpoint leading_digits (s : string) : list Z :=
  match s with
  | String c s' =>
      match digit c with
      | Some d => d :: leading_digits s'
      | None => []
      end
  | EmptyString => []
  end.

Definition mathInt (ds : list Z) : Z :=
  fold_left (fun acc d => 10 * acc + d)%Z ds 0%Z.

Definition to_Number (z : Z) : Number :=
  if (Z.abs z <=? 2 ^ 53)%Z then Finite z else Rounded z.

Definition parseInt10 (inputString : string) : Number :=
  let trimmed := trim_start inputString in
  let '(sign, rest) :=
    match trimmed with
    | String "-" rest => ((-1)%Z, rest)
    | String "+" rest => (1%Z, rest)
    | _ => (1%Z, trimmed)
    end in
  match leading_digits rest with
  | [] => NaN
  | digits => to_Number (sign * mathInt digits)
  end.

(** [parseInt(process.env.PORT || '', 10) || 3000]: [NaN] and both zeros are
    falsy. *)
Definition port_of (PORT : option string) : Number :=
  match parseInt10 (default "" (truthy PORT)) with
  | NaN => Finite 3000
  | Finite 0 => Finite 3000
  | port => port
  end.

(** *** Operations of the collaborators *)

Inductive Op :=
  | DataSource_initialize
  | DataSource_runMigrations
  | IdentityManager_getInstance
  | new_NodesPool
  | NodesPool_initialize
  | new_AbortControllerPool
  | getEncryptionKey
  | RateLimiterManager_getInstance
  | getDataSource
  | getRepository_ChatFlow
  | ChatFlow_find
  | initializeRateLimiters
  | new_CachePool
  | UsageCacheManager_getInstance
  | new_Telemetry
  | new_SSEStreamer
  | QueueManager_getInstance
  | setupAllQueues
  | new_RedisEventSubscriber
  | RedisEventSubscriber_connect
  | getPlatformType
  | migrateApiKeysFromJsonToDb
  | Telemetry_flush
  | RedisEventSubscriber_disconnect
  | new_App
  | http_createServer
  | server_listen
  (* [config], one operation for each place that calls out *)
  | express_json (limit : string)
  | app_use_json
  | express_urlencoded (limit : string)
  | app_use_urlencoded
  | app_set_trust_proxy
  | getCorsOptions
  | cors
  | app_use_cors
  | cookieParser
  | app_use_cookieParser
  | app_use_iframe_origins
  | app_disable_x_powered_by
  | app_use_expressRequestLogger
  | app_use_sanitizeMiddleware
  | app_use_allow_credentials
  | initializeJwtCookieMiddleware
  | app_use_authentication
  | IdentityManager_initializeSSO
  | new_Prometheus
  | new_OpenTelemetry
  | MetricsProvider_initializeCounters
  | MetricsProvider_getName
  | app_use_api_v1_router
  | app_get_api_v1_ip
  | IdentityManager_isCloud
  | QueueManager_getBullBoardRouter
  | app_use_admin_queues
  | getNodeModulesPackagePath
  | path_join_build
  | path_join_index_html
  | express_static
  | app_use_static
  | app_use_index_html
  | app_use_errorHandlerMiddleware.

(** What a call does: it returns (a promise that fulfils, if it returns
    one), it throws before returning, or it returns a promise that
    rejects. *)
Inductive Behaviour :=
  | Succeeds
  | Throws (e : Error)
  | Rejects (e : Error).

Inductive Thrown :=
  | Raised (e : Error)
  | TypeError (message : string).

Inductive Event :=
  | Invoked (op : Op)
  | Listen (port : Number) (host : option string)
  | LoggerInfo (message : string)
  | LoggerError (message : string) (error : Thrown)
  | LoggerErrorMessage (message : string).

Inductive MetricsProvider :=
  | Prometheus
  | OpenTelemetry.

(** The fields of the [App] that these functions assign; a field is
    [undefined] until it is assigned.  ([app] is assigned by the
    constructor and [AppDataSource] by its initialiser, so these two are
    always set.) *)
Record App := {
  identityManager : bool;
  nodesPool : bool;
  abortControllerPool : bool;
  rateLimiterManager : bool;
  cachePool : bool;
  usageCacheManager : bool;
  telemetry : bool;
  sseStreamer : bool;
  queueManager : bool;
  redisSubscriber : bool;
  metricsProvider : option MetricsProvider
}.

(** [new App()]. *)
Definition new_app : App :=
  {| identityManager := false; nodesPool := false; abortControllerPool := false;
     rateLimiterManager := false; cachePool := false; usageCacheManager := false;
     telemetry := false; sseStreamer := false; queueManager := false;
     redisSubscriber := false; metricsProvider := None |}.

Inductive Field :=
  | f_identityManager | f_nodesPool | f_abortControllerPool
  | f_rateLimiterManager | f_cachePool | f_usageCacheManager | f_telemetry
  | f_sseStreamer | f_queueManager | f_redisSubscriber.

Definition assign (f : Field) (a : App) : App :=
  match f with
  | f_identityManager =>
      {| identityManager := true; nodesPool := nodesPool a;
         abortControllerPool := abortControllerPool a;
         rateLimiterManager := rateLimiterManager a; cachePool := cachePool a;
         usageCacheManager := usageCacheManager a; telemetry := telemetry a;
         sseStreamer := sseStreamer a; queueManager := queueManager a;
         redisSubscriber := redisSubscriber a;
         metricsProvider := metricsProvider a |}
  | f_nodesPool =>
      {| identityManager := identityManager a; nodesPool := true;
         abortControllerPool := abortControllerPool a;
         rateLimiterManager := rateLimiterManager a; cachePool := cachePool a;
         usageCacheManager := usageCacheManager a; telemetry := telemetry a;
         sseStreamer := sseStreamer a; queueManager := queueManager a;
         redisSubscriber := redisSubscriber a;
         metricsProvider := metricsProvider a |}
  | f_abortControllerPool =>
      {| identityManager := identityManager a; nodesPool := nodesPool a;
         abortControllerPool := true;
         rateLimiterManager := rateLimiterManager a; cachePool := cachePool a;
         usageCacheManager := usageCacheManager a; telemetry := telemetry a;
         sseStreamer := sseStreamer a; queueManager := queueManager a;
         redisSubscriber := redisSubscriber a;
         metricsProvider := metricsProvider a |}
  | f_rateLimiterManager =>
      {| identityManager := identityManager a; nodesPool := nodesPool a;
         abortControllerPool := abortControllerPool a;
         rateLimiterManager := true; cachePool := cachePool a;
         usageCacheManager := usageCacheManager a; telemetry := telemetry a;
         sseStreamer := sseStreamer a; queueManager := queueManager a;
         redisSubscriber := redisSubscriber a;
         metricsProvider := metricsProvider a |}
  | f_cachePool =>
      {| identityManager := identityManager a; nodesPool := nodesPool a;
         abortControllerPool := abortControllerPool a;
         rateLimiterManager := rateLimiterManager a; cachePool := true;
         usageCacheManager := usageCacheManager a; telemetry := telemetry a;
         sseStreamer := sseStreamer a; queueManager := queueManager a;
         redisSubscriber := redisSubscriber a;
         metricsProvider := metricsProvider a |}
  | f_usageCacheManager =>
      {| identityManager := identityManager a; nodesPool := nodesPool a;
         abortControllerPool := abortControllerPool a;
         rateLimiterManager := rateLimiterManager a; cachePool := cachePool a;
         usageCacheManager := true; telemetry := telemetry a;
         sseStreamer := sseStreamer a; queueManager := queueManager a;
         redisSubscriber := redisSubscriber a;
         metricsProvider := metricsProvider a |}
  | f_telemetry =>
      {| identityManager := identityManager a; nodesPool := nodesPool a;
         abortControllerPool := abortControllerPool a;
         rateLimiterManager := rateLimiterManager a; cachePool := cachePool a;
         usageCacheManager := usageCacheManager a; telemetry := true;
         sseStreamer := sseStreamer a; queueManager := queueManager a;
         redisSubscriber := redisSubscriber a;
         metricsProvider := metricsProvider a |}
  | f_sseStreamer =>
      {| identityManager := identityManager a; nodesPool := nodesPool a;
         abortControllerPool := abortControllerPool a;
         rateLimiterManager := rateLimiterManager a; cachePool := cachePool a;
         usageCacheManager := usageCacheManager a; telemetry := telemetry a;
         sseStreamer := true; queueManager := queueManager a;
         redisSubscriber := redisSubscriber a;
         metricsProvider := metricsProvider a |}
  | f_queueManager =>
      {| identityManager := identityManager a; nodesPool := nodesPool a;
         abortControllerPool := abortControllerPool a;
         rateLimiterManager := rateLimiterManager a; cachePool := cachePool a;
         usageCacheManager := usageCacheManager a; telemetry := telemetry a;
         sseStreamer := sseStreamer a; queueManager := true;
         redisSubscriber := redisSubscriber a;
         metricsProvider := metricsProvider a |}
  | f_redisSubscriber =>
      {| identityManager := identityManager a; nodesPool := nodesPool a;
         abortControllerPool := abortControllerPool a;
         rateLimiterManager := rateLimiterManager a; cachePool := cachePool a;
         usageCacheManager := usageCacheManager a; telemetry := telemetry a;
         sseStreamer := sseStreamer a; queueManager := queueManager a;
         redisSubscriber := true;
         metricsProvider := metricsProvider a |}
  end.

(** *** State, exceptions and calls *)

Inductive Result (A : Type) :=
  | Ok (a : A)
  | Raise (t : Thrown).
Arguments Ok {A} a.
Arguments Raise {A} t.

Definition LM (S A : Type) : Type := S -> Result A * S.

Definition lret {S A} (a : A) : LM S A := fun s => (Ok a, s).

Definition lbind {S A B} (m : LM S A) (k : A -> LM S B) : LM S B :=
  fun s =>
    match m s with
    | (Ok a, s') => k a s'
    | (Raise t, s') => (Raise t, s')
    end.

Definition ltry {S A} (m : LM S A) (handler : Thrown -> LM S A) : LM S A :=
  fun s =>
    match m s with
    | (Ok a, s') => (Ok a, s')
    | (Raise t, s') => handler t s'
    end.

Notation "'do*' x ':=' m 'in' k" := (lbind m (fun x => k))
  (at level 10, x name, m at level 100, k at level 200).

(** A method runs on its receiver and appends to the log of the process. *)
Record Proc := {
  this : App;
  log : list Event
}.

(** The module: its variable [serverApp] and the same log. *)
Record World := {
  serverApp : option App;
  events : list Event
}.

(** A promise as its consumer sees it: whether it rejects, and when it
    settles. *)
Record Promise := {
  rejection : option Error;
  settles_at : nat
}.

Section Environment.

(** What the collaborators do, when the promises they return settle, the
    environment of the process, and [MODE.QUEUE] of [./Interface].  Within
    one run of a function each operation is called at most once, so one
    behaviour per operation is all a run can observe. *)
Variable behaviour : Op -> Behaviour.
Variable settle_time : Op -> nat.
Variable process_env : gmap string string.
Variable MODE_QUEUE : string.

(** What two of the calls of [config] return, where the result is used:
    [identityManager.isCloud()], and [getName()] of the metrics provider. *)
Variable isCloud : bool.
Variable getName : MetricsProvider -> string.

Definition emit (e : Event) : LM Proc unit :=
  fun p => (Ok tt, {| this := this p; log := log p ++ [e] |}).

Definition set_field (f : Field) : LM Proc unit :=
  fun p => (Ok tt, {| this := assign f (this p); log := log p |}).

(** A call whose result is used as it is: only a throw interrupts. *)
Definition call (op : Op) : LM Proc unit :=
  do* _ := emit (Invoked op) in
  fun p =>
    match behaviour op with
    | Throws e => (Raise (Raised e), p)
    | _ => (Ok tt, p)
    end.

(** [await op(...)]: a throw and a rejection both surface here. *)
Definition await_call (op : Op) : LM Proc unit :=
  do* _ := emit (Invoked op) in
  fun p =>
    match behaviour op with
    | Succeeds => (Ok tt, p)
    | Throws e => (Raise (Raised e), p)
    | Rejects e => (Raise (Raised e), p)
    end.

Definition is_set (f : Field) (a : App) : bool :=
  match f with
  | f_identityManager => identityManager a
  | f_nodesPool => nodesPool a
  | f_abortControllerPool => abortControllerPool a
  | f_rateLimiterManager => rateLimiterManager a
  | f_cachePool => cachePool a
  | f_usageCacheManager => usageCacheManager a
  | f_telemetry => telemetry a
  | f_sseStreamer => sseStreamer a
  | f_queueManager => queueManager a
  | f_redisSubscriber => redisSubscriber a
  end.

(** [this.field.method()], the promise kept for later: reading the method
    off a field that is [undefined] is a [TypeError]. *)
Definition member_call (f : Field) (method : string) (op : Op)
  : LM Proc Promise :=
  fun p =>
    if is_set f (this p) then
      match behaviour op with
      | Succeeds =>
          (Ok {| rejection := None; settles_at := settle_time op |},
           {| this := this p; log := log p ++ [Invoked op] |})
      | Throws e =>
          (Raise (Raised e), {| this := this p; log := log p ++ [Invoked op] |})
      | Rejects e =>
          (Ok {| rejection := Some e; settles_at := settle_time op |},
           {| this := this p; log := log p ++ [Invoked op] |})
      end
    else
      (Raise (TypeError
                ("Cannot read properties of undefined (reading '" +:+ method +:+ "')")),
       p).

(** [this.field.method(...)] called for its result, and the same awaited. *)
Definition call_member (f : Field) (method : string) (op : Op) : LM Proc unit :=
  fun p =>
    if is_set f (this p) then call op p
    else
      (Raise (TypeError
                ("Cannot read properties of undefined (reading '" +:+ method +:+ "')")),
       p).

Definition await_member (f : Field) (method : string) (op : Op) : LM Proc unit :=
  fun p =>
    if is_set f (this p) then await_call op p
    else
      (Raise (TypeError
                ("Cannot read properties of undefined (reading '" +:+ method +:+ "')")),
       p).

Definition set_metricsProvider (provider : MetricsProvider) : LM Proc unit :=
  fun p =>
    let a := this p in
    (Ok tt,
     {| this :=
          {| identityManager := identityManager a; nodesPool := nodesPool a;
             abortControllerPool := abortControllerPool a;
             rateLimiterManager := rateLimiterManager a; cachePool := cachePool a;
             usageCacheManager := usageCacheManager a; telemetry := telemetry a;
             sseStreamer := sseStreamer a; queueManager := queueManager a;
             redisSubscriber := redisSubscriber a;
             metricsProvider := Some provider |};
        log := log p |}).

(** The rejection [Promise.all] settles with: that of the promise that
    rejects first, the earlier in the array on a tie; none if all fulfil. *)
Fixpoint first_rejection (ps : list Promise) : option (Error * nat) :=
  match ps with
  | [] => None
  | p :: ps' =>
      match rejection p, first_rejection ps' with
      | Some e, Some (e', t') =>
          if (settles_at p <=? t')%nat then Some (e, settles_at p) else Some (e', t')
      | Some e, None => Some (e, settles_at p)
      | None, later => later
      end
  end.

Definition await_Promise_all (ps : list Promise) : LM Proc unit :=
  fun p =>
    match first_rejection ps with
    | Some (e, _) => (Raise (Raised e), p)
    | None => (Ok tt, p)
    end.

(** *** [App.initDatabase] *)

Definition queue_mode : bool :=
  bool_decide (process_env !! "MODE" = Some MODE_QUEUE).

Definition initDatabase : LM Proc unit :=
  ltry
    (do* _ := await_call DataSource_initialize in
     do* _ := emit (LoggerInfo "📦 [server]: Data Source is initializing...") in
     do* _ := await_call DataSource_runMigrations in
     do* _ := await_call IdentityManager_getInstance in
     do* _ := set_field f_identityManager in
     do* _ := call new_NodesPool in
     do* _ := set_field f_nodesPool in
     do* _ := await_call NodesPool_initialize in
     do* _ := call new_AbortControllerPool in
     do* _ := set_field f_abortControllerPool in
     do* _ := await_call getEncryptionKey in
     do* _ := call RateLimiterManager_getInstance in
     do* _ := set_field f_rateLimiterManager in
     do* _ := call getDataSource in
     do* _ := call getRepository_ChatFlow in
     do* _ := await_call ChatFlow_find in
     do* _ := await_call initializeRateLimiters in
     do* _ := call new_CachePool in
     do* _ := set_field f_cachePool in
     do* _ := await_call UsageCacheManager_getInstance in
     do* _ := set_field f_usageCacheManager in
     do* _ := call new_Telemetry in
     do* _ := set_field f_telemetry in
     do* _ := call new_SSEStreamer in
     do* _ := set_field f_sseStreamer in
     do* _ :=
       (if queue_mode then
          do* _ := call QueueManager_getInstance in
          do* _ := set_field f_queueManager in
          do* _ := call setupAllQueues in
          do* _ := emit (LoggerInfo "✅ [Queue]: All queues setup successfully") in
          do* _ := call new_RedisEventSubscriber in
          do* _ := set_field f_redisSubscriber in
          await_call RedisEventSubscriber_connect
        else lret tt) in
     do* _ := call getPlatformType in
     do* _ := await_call migrateApiKeysFromJsonToDb in
     emit (LoggerInfo "📦 [server]: Data Source has been initialized!"))
    (fun error =>
       emit (LoggerError "❌ [server]: Error during Data Source initialization:"
                         error)).

(** *** [App.config]

    The middlewares and handlers that [config] installs are values handed to
    [app.use] and [app.get]; installing them runs none of them.  An argument
    is evaluated before the call it is passed to. *)

Definition metrics_enabled : bool :=
  bool_decide (process_env !! "ENABLE_METRICS" = Some "true").

(** The condition of line 320 up to its last conjunct, which calls out. *)
Definition bull_dashboard_enabled : bool :=
  queue_mode &&
  bool_decide (process_env !! "ENABLE_BULLMQ_DASHBOARD" = Some "true").

Definition config : LM Proc unit :=
  let flowise_file_size_limit :=
    default "50mb" (truthy (process_env !! "FLOWISE_FILE_SIZE_LIMIT")) in
  do* _ := call (express_json flowise_file_size_limit) in
  do* _ := call app_use_json in
  do* _ := call (express_urlencoded flowise_file_size_limit) in
  do* _ := call app_use_urlencoded in
  do* _ := call app_set_trust_proxy in
  do* _ := call getCorsOptions in
  do* _ := call cors in
  do* _ := call app_use_cors in
  do* _ := call cookieParser in
  do* _ := call app_use_cookieParser in
  do* _ := call app_use_iframe_origins in
  do* _ := call app_disable_x_powered_by in
  do* _ := call app_use_expressRequestLogger in
  do* _ := call app_use_sanitizeMiddleware in
  do* _ := call app_use_allow_credentials in
  do* _ := await_call initializeJwtCookieMiddleware in
  do* _ := call app_use_authentication in
  do* _ := await_member f_identityManager "initializeSSO"
             IdentityManager_initializeSSO in
  do* _ :=
    (if metrics_enabled then
       do* _ :=
         (if bool_decide (process_env !! "METRICS_PROVIDER" = Some "prometheus")
             || bool_decide (process_env !! "METRICS_PROVIDER" = None) then
            do* _ := call new_Prometheus in
            set_metricsProvider Prometheus
          else if bool_decide (process_env !! "METRICS_PROVIDER" =
                               Some "open_telemetry") then
            do* _ := call new_OpenTelemetry in
            set_metricsProvider OpenTelemetry
          else lret tt) in
       fun p =>
         match metricsProvider (this p) with
         | Some provider =>
             (do* _ := await_call MetricsProvider_initializeCounters in
              do* _ := call MetricsProvider_getName in
              emit (LoggerInfo
                      ("📊 [server]: Metrics Provider [" +:+ getName provider +:+
                       "] has been initialized!"))) p
         | None =>
             emit (LoggerErrorMessage
                     "❌ [server]: Metrics collection is enabled, but failed to initialize provider (valid values are 'prometheus' or 'open_telemetry'.")
               p
         end
     else lret tt) in
  do* _ := call app_use_api_v1_router in
  do* _ := call app_get_api_v1_ip in
  do* _ :=
    (if bull_dashboard_enabled then
       do* _ := call_member f_identityManager "isCloud" IdentityManager_isCloud in
       if negb isCloud then
         do* _ := call_member f_queueManager "getBullBoardRouter"
                    QueueManager_getBullBoardRouter in
         call app_use_admin_queues
       else lret tt
     else lret tt) in
  do* _ := call getNodeModulesPackagePath in
  do* _ := call path_join_build in
  do* _ := call path_join_index_html in
  do* _ := call express_static in
  do* _ := call app_use_static in
  do* _ := call app_use_index_html in
  call app_use_errorHandlerMiddleware.

(** *** [App.stopApp]

    The template literal of the [catch] block is the prefix below followed
    by the error. *)

Definition stopApp : LM Proc unit :=
  ltry
    (do* flushed := member_call f_telemetry "flush" Telemetry_flush in
     do* removePromises :=
       (fun p =>
          if queueManager (this p) then
            (do* disconnected :=
               member_call f_redisSubscriber "disconnect"
                 RedisEventSubscriber_disconnect in
             lret [flushed; disconnected]) p
          else lret [flushed] p) in
     await_Promise_all removePromises)
    (fun e =>
       emit (LoggerError "❌[server]: Flowise Server shut down error: " e)).

(** *** [start] and [getInstance] *)

Definition wemit (e : Event) : LM World unit :=
  fun w => (Ok tt, {| serverApp := serverApp w; events := events w ++ [e] |}).

Definition wcall (op : Op) : LM World unit :=
  do* _ := wemit (Invoked op) in
  fun w =>
    match behaviour op with
    | Throws e => (Raise (Raised e), w)
    | _ => (Ok tt, w)
    end.

(** A method called on the instance [serverApp] holds: the instance is
    updated in place. *)
Definition on_serverApp (m : LM Proc unit) : LM World unit :=
  fun w =>
    match serverApp w with
    | Some a =>
        let '(r, p) := m {| this := a; log := events w |} in
        (r, {| serverApp := Some (this p); events := log p |})
    | None =>
        (Raise (TypeError "Cannot read properties of undefined"), w)
    end.

Definition start : LM World unit :=
  do* _ := wcall new_App in
  do* _ := (fun w => (Ok tt, {| serverApp := Some new_app; events := events w |})) in
  let host := process_env !! "HOST" in
  let port := port_of (process_env !! "PORT") in
  do* _ := wcall http_createServer in
  do* _ := on_serverApp initDatabase in
  do* _ := on_serverApp config in
  do* _ := wemit (Listen port host) in
  fun w =>
    match behaviour server_listen with
    | Throws e => (Raise (Raised e), w)
    | _ => (Ok tt, w)
    end.

Definition getInstance (w : World) : option App := serverApp w.

(** *** The body of [initDatabase] as a script

    The statements of the [try] block in program order, to say how far a run
    got: which steps ran, what they logged and which fields they assigned. *)

Inductive Step :=
  | SAwait (op : Op)
  | SCall (op : Op)
  | SAssign (f : Field)
  | SInfo (message : string).

Definition run_step (s : Step) : LM Proc unit :=
  match s with
  | SAwait op => await_call op
  | SCall op => call op
  | SAssign f => set_field f
  | SInfo message => emit (LoggerInfo message)
  end.

Fixpoint run_steps (l : list Step) : LM Proc unit :=
  match l with
  | [] => lret tt
  | s :: l' => do* _ := run_step s in run_steps l'
  end.

Definition queue_steps : list Step :=
  [SCall QueueManager_getInstance; SAssign f_queueManager;
   SCall setupAllQueues;
   SInfo "✅ [Queue]: All queues setup successfully";
   SCall new_RedisEventSubscriber; SAssign f_redisSubscriber;
   SAwait RedisEventSubscriber_connect].

Definition init_steps (queue : bool) : list Step :=
  [SAwait DataSource_initialize;
   SInfo "📦 [server]: Data Source is initializing...";
   SAwait DataSource_runMigrations;
   SAwait IdentityManager_getInstance; SAssign f_identityManager;
   SCall new_NodesPool; SAssign f_nodesPool; SAwait NodesPool_initialize;
   SCall new_AbortControllerPool; SAssign f_abortControllerPool;
   SAwait getEncryptionKey;
   SCall RateLimiterManager_getInstance; SAssign f_rateLimiterManager;
   SCall getDataSource; SCall getRepository_ChatFlow; SAwait ChatFlow_find;
   SAwait initializeRateLimiters;
   SCall new_CachePool; SAssign f_cachePool;
   SAwait UsageCacheManager_getInstance; SAssign f_usageCacheManager;
   SCall new_Telemetry; SAssign f_telemetry;
   SCall new_SSEStreamer; SAssign f_sseStreamer] ++
  (if queue then queue_steps else []) ++
  [SCall getPlatformType; SAwait migrateApiKeysFromJsonToDb;
   SInfo "📦 [server]: Data Source has been initialized!"].

(** The error a step ends with, if it does. *)
Definition step_failure (s : Step) : option Error :=
  match s with
  | SAwait op =>
      match behaviour op with
      | Succeeds => None
      | Throws e => Some e
      | Rejects e => Some e
      end
  | SCall op =>
      match behaviour op with
      | Throws e => Some e
      | _ => None
      end
  | _ => None
  end.

(** The steps a run enters: all of them up to and including the first that
    fails. *)
Fixpoint entered (l : list Step) : list Step :=
  match l with
  | [] => []
  | s :: l' =>
      s :: match step_failure s with
           | Some _ => []
           | None => entered l'
           end
  end.

Fixpoint first_failure (l : list Step) : option Error :=
  match l with
  | [] => None
  | s :: l' =>
      match step_failure s with
      | Some e => Some e
      | None => first_failure l'
      end
  end.

Definition step_events (s : Step) : list Event :=
  match s with
  | SAwait op => [Invoked op]
  | SCall op => [Invoked op]
  | SAssign _ => []
  | SInfo message => [LoggerInfo message]
  end.

Definition step_assigns (a : App) (s : Step) : App :=
  match s with
  | SAssign f => assign f a
  | _ => a
  end.

(** The fields in the order [initDatabase] assigns them. *)
Definition field_order : list Field :=
  [f_identityManager; f_nodesPool; f_abortControllerPool; f_rateLimiterManager;
   f_cachePool; f_usageCacheManager; f_telemetry; f_sseStreamer;
   f_queueManager; f_redisSubscriber].

(** The fields assigned are the first [k] of [field_order], for some [k]. *)
Definition Field_eqb (f g : Field) : bool :=
  match f, g with
  | f_identityManager, f_identityManager
  | f_nodesPool, f_nodesPool
  | f_abortControllerPool, f_abortControllerPool
  | f_rateLimiterManager, f_rateLimiterManager
  | f_cachePool, f_cachePool
  | f_usageCacheManager, f_usageCacheManager
  | f_telemetry, f_telemetry
  | f_sseStreamer, f_sseStreamer
  | f_queueManager, f_queueManager
  | f_redisSubscriber, f_redisSubscriber => true
  | _, _ => false
  end.

Definition assigned_in_order_upto (k : nat) (a : App) : bool :=
  forallb (fun f => Bool.eqb (is_set f a)
                      (existsb (Field_eqb f) (firstn k field_order)))
          field_order.

Definition assigned_in_order (a : App) : bool :=
  existsb (fun k => assigned_in_order_upto k a) (seq 0 11).

Definition is_Listen (e : Event) : bool :=
  match e with Listen _ _ => true | _ => false end.

(** The operations [config] calls. *)
Definition in_config (op : Op) : bool :=
  match op with
  | express_json _ | app_use_json | express_urlencoded _ | app_use_urlencoded
  | app_set_trust_proxy | getCorsOptions | cors | app_use_cors
  | cookieParser | app_use_cookieParser | app_use_iframe_origins
  | app_disable_x_powered_by | app_use_expressRequestLogger
  | app_use_sanitizeMiddleware | app_use_allow_credentials
  | initializeJwtCookieMiddleware | app_use_authentication
  | IdentityManager_initializeSSO | new_Prometheus | new_OpenTelemetry
  | MetricsProvider_initializeCounters | MetricsProvider_getName
  | app_use_api_v1_router | app_get_api_v1_ip | IdentityManager_isCloud
  | QueueManager_getBullBoardRouter | app_use_admin_queues
  | getNodeModulesPackagePath | path_join_build | path_join_index_html
  | express_static | app_use_static | app_use_index_html
  | app_use_errorHandlerMiddleware => true
  | _ => false
  end.

Definition config_event (e : Event) : bool :=
  match e with
  | Invoked op => in_config op
  | Listen _ _ => false
  | _ => true
  end.

(** A computation that, from any state, adds only events of [config] to the
    log and leaves the fields that [initDatabase] assigns as they are. *)
Definition config_like {A} (m : LM Proc A) : Prop :=
  forall p,
    (exists new, log (snd (m p)) = log p ++ new /\
                 forallb config_event new = true) /\
    (forall f, is_set f (this (snd (m p))) = is_set f (this p)).

(** A computation that returns, from any state. *)
Definition completes {A} (m : LM Proc A) : Prop :=
  forall p, exists a, fst (m p) = Ok a.

End Environment.

End Lifecycle.

(** ** Lower-casing a path

    ASCII lower case, the inverse direction of [RegExp.canonicalize] on the
    letters: used to say what the case-insensitive pattern accepts. *)
Definition lower (c : ascii) : ascii :=
  let n := nat_of_ascii c in
  if (65 <=? n)%nat && (n <=? 90)%nat then ascii_of_nat (n + 32) else c.

Fixpoint lowercase (s : string) : string :=
  match s with
  | EmptyString => EmptyString
  | String c s' => String (lower c) (lowercase s')
  end.

Definition all_ascii : list ascii := map ascii_of_nat (seq 0 256).

(** For a pattern character [p] that lower-casing leaves alone, comparing
    under [RegExp.canonicalize] and comparing with the lower-cased subject
    character agree. *)
Definition fold_agrees (p c : ascii) : bool :=
  implb (Ascii.eqb (lower p) p)
        (Bool.eqb (Ascii.eqb (RegExp.canonicalize p) (RegExp.canonicalize c))
                  (Ascii.eqb p (lower c))).

(** [needle] occurs somewhere in [s]. *)
Definition contains (needle s : string) : Prop :=
  exists pre post, s = pre +:+ needle +:+ post.

(** ** Fixtures used to run the model *)

Definition example_whitelist : list string :=
  ["/api/v1/marketplaces/"; "/api/v1/ping"].

Definition example_uuid (n : nat) : string := "user-" +:+ pretty n.

Definition empty_db : Db :=
  {| rows := []; gen_uuid := example_uuid; clock := Z.of_nat; tick := 0 |}.

Definition existing_user : FlowiseUser :=
  {| id := "existing-user-id"; email := "existing.user@example.com";
     createdDate := 7; updatedDate := 7 |}.

Definition seeded_db : Db :=
  {| rows := [existing_user]; gen_uuid := example_uuid; clock := Z.of_nat;
     tick := 1 |}.

Definition fresh_env (db : Db) : Env Db := {| storage := db; calls := [] |}.

Definition request (p : string) (hs : list (string * string)) : Request :=
  {| path := p; headers := list_to_map hs; user := None |}.

(** A storage that cannot be reached: every query fails. *)
Inductive Offline := offline.

#[export] Instance Offline_Repository : Repository Offline :=
  {| findOneBy := fun _ w => (Throw (DriverError "connect ECONNREFUSED"), w);
     save := fun _ w => (Throw (DriverError "connect ECONNREFUSED"), w) |}.

(** A queue-mode process in which [setupAllQueues] throws and the promise
    of [telemetry.flush] rejects. *)
Definition queue_env : gmap string string :=
  list_to_map [("MODE", "queue"); ("PORT", "8080")].

(** A process whose database cannot be reached: [DataSource.initialize]
    rejects, everything else would succeed. *)
Definition database_down_behaviour (op : Lifecycle.Op) : Lifecycle.Behaviour :=
  match op with
  | Lifecycle.DataSource_initialize =>
      Lifecycle.Rejects (DriverError "connect ECONNREFUSED")
  | _ => Lifecycle.Succeeds
  end.

Definition broken_queue_behaviour (op : Lifecycle.Op) : Lifecycle.Behaviour :=
  match op with
  | Lifecycle.setupAllQueues => Lifecycle.Throws (DriverError "connect ECONNREFUSED")
  | Lifecycle.Telemetry_flush => Lifecycle.Rejects (DriverError "flush failed")
  | _ => Lifecycle.Succeeds
  end.

(** * Properties *)

(** ** The two patterns *)

Section RegExpFacts.
Import RegExp.

Lemma char_matches_refl ic c : char_matches ic c c = true.
Proof. destruct ic; apply Ascii.eqb_refl. Qed.

Lemma matches_here_prefix ic pat post :
  matches_here ic pat (pat +:+ post) = true.
Proof.
  induction pat as [|p pat IH]; simpl; [reflexivity|].
  now rewrite char_matches_refl, IH.
Qed.

Lemma search_here ic pat s : matches_here ic pat s = true -> search ic pat s = true.
Proof. intros Hm. destruct s; simpl in *; rewrite Hm; reflexivity. Qed.

Lemma search_skip ic pat pre s :
  search ic pat s = true -> search ic pat (pre +:+ s) = true.
Proof.
  intros Hs. induction pre as [|c pre IH]; simpl; [exact Hs|].
  rewrite IH. apply orb_true_r.
Qed.

(** Substring containment is enough for either pattern to match. *)
Lemma search_contains ic pat pre post :
  search ic pat (pre +:+ pat +:+ post) = true.
Proof. apply search_skip, search_here, matches_here_prefix. Qed.

Lemma char_matches_exact_fold p c :
  char_matches false p c = true -> char_matches true p c = true.
Proof.
  unfold char_matches. intros Heq. apply Ascii.eqb_eq in Heq. subst c.
  apply Ascii.eqb_refl.
Qed.

Lemma matches_here_exact_fold pat : forall s,
  matches_here false pat s = true -> matches_here true pat s = true.
Proof.
  induction pat as [|p pat IH]; intros [|c s]; simpl; try easy.
  intros [Hc Hs]%andb_true_iff. apply andb_true_iff. split.
  - now apply char_matches_exact_fold.
  - now apply IH.
Qed.

Lemma search_exact_fold pat s :
  search false pat s = true -> search true pat s = true.
Proof.
  induction s as [|c s IH]; simpl.
  - rewrite !orb_false_r. apply matches_here_exact_fold.
  - intros [Hm|Hs]%orb_true_iff.
    + apply orb_true_iff. left. now apply matches_here_exact_fold.
    + apply orb_true_iff. right. now apply IH.
Qed.

(** A path the case-sensitive pattern matches is matched by the
    case-insensitive one: the inner test of the middleware is reached. *)
Lemma case_sensitive_in_scope p :
  test URL_CASE_SENSITIVE_REGEX p = true ->
  test URL_CASE_INSENSITIVE_REGEX p = true.
Proof. apply search_exact_fold. Qed.

(** Conversely, the case-sensitive search finds only what is there. *)
Lemma matches_here_exact_inv pat : forall s,
  matches_here false pat s = true -> exists post, s = pat +:+ post.
Proof.
  induction pat as [|p pat IH]; intros s Hm; [now exists s|].
  destruct s as [|c s]; [discriminate|]. cbn [matches_here] in Hm.
  apply andb_true_iff in Hm as [Hc Hs].
  apply Ascii.eqb_eq in Hc as <-. destruct (IH _ Hs) as [post ->].
  now exists post.
Qed.

Lemma search_exact_inv pat s :
  search false pat s = true -> exists pre post, s = pre +:+ pat +:+ post.
Proof.
  induction s as [|c s IH]; cbn [search]; intros Hs.
  - rewrite orb_false_r in Hs. apply matches_here_exact_inv in Hs as [post ->].
    now exists "", post.
  - apply orb_true_iff in Hs as [Hm|Hs].
    + apply matches_here_exact_inv in Hm as [post ->]. now exists "", post.
    + destruct (IH Hs) as (pre & post & ->). now exists (String c pre), post.
Qed.

(** Ignoring case is searching the lower-cased subject, for a pattern
    without upper-case letters. *)
Lemma all_ascii_complete c : In c all_ascii.
Proof.
  unfold all_ascii. rewrite <- (ascii_nat_embedding c).
  apply in_map, in_seq. pose proof (nat_ascii_bounded c). lia.
Qed.

Lemma fold_agrees_all :
  forallb (fun p => forallb (fold_agrees p) all_ascii) all_ascii = true.
Proof. vm_compute. reflexivity. Qed.

(** For a pattern character that is not an upper-case letter, matching with
    case ignored is matching the lower-cased subject character. *)
Lemma char_matches_lower p c :
  lower p = p -> char_matches true p c = char_matches false p (lower c).
Proof.
  intros Hp. pose proof fold_agrees_all as Hall.
  rewrite forallb_forall in Hall. specialize (Hall p (all_ascii_complete p)).
  rewrite forallb_forall in Hall. specialize (Hall c (all_ascii_complete c)).
  unfold fold_agrees in Hall. rewrite Hp, Ascii.eqb_refl in Hall.
  cbn [implb] in Hall. now apply Bool.eqb_prop in Hall.
Qed.

Lemma matches_here_lower pat : forall s,
  lowercase pat = pat ->
  matches_here true pat s = matches_here false pat (lowercase s).
Proof.
  induction pat as [|p pat IH]; intros s Hpat; [reflexivity|].
  cbn [lowercase] in Hpat. injection Hpat as Hp Hpat.
  destruct s as [|c s]; [reflexivity|]. cbn [matches_here lowercase].
  now rewrite (char_matches_lower _ _ Hp), (IH _ Hpat).
Qed.

Lemma search_lower pat s :
  lowercase pat = pat -> search true pat s = search false pat (lowercase s).
Proof.
  intros Hpat. induction s as [|c s IH].
  - cbn [search lowercase]. now rewrite (matches_here_lower _ "" Hpat).
  - cbn [search]. rewrite (matches_here_lower _ _ Hpat), IH. reflexivity.
Qed.

End RegExpFacts.

(** ** The table is a lawful repository *)

Lemma find_has_email e l u : List.find (has_email e) l = Some u -> email u = e.
Proof.
  intros Hf. apply find_some in Hf as [_ Hf]. now apply String.eqb_eq in Hf.
Qed.

#[export] Instance Db_Lawful : LawfulRepository Db.
Proof.
  split.
  - intros e db u db' Hq. injection Hq as Hq _. now apply find_has_email in Hq.
  - intros d db u db' Hs. cbn [save Db_Repository] in Hs. unfold db_save in Hs.
    destruct (existsb _ _); [discriminate|].
    injection Hs as <- _. reflexivity.
Qed.

Section ServiceFacts.
Context {W : Type} `{LawfulRepository W}.

Lemma findOrCreateUserByEmail_email e w u w' :
  findOrCreateUserByEmail e w = (Return u, w') -> email u = e.
Proof.
  unfold findOrCreateUserByEmail, bind, ret.
  destruct (findOneBy e w) as [[[found|]|err] w1] eqn:Hfind; try discriminate.
  - intros [= <- _]. eapply findOneBy_email, Hfind.
  - destruct (save _ w1) as [[saved|err] w2] eqn:Hsave; try discriminate.
    intros [= <- _]. apply (save_email _ _ _ _ Hsave).
Qed.

(** A call that runs alone, resumed at each of its two [await]s, is the
    sequential function. *)
Lemma task_runs_as_service e w :
  let '(t1, w1) := task_step (AwaitFindOneBy e) w in
  let '(t2, w2) := task_step t1 w1 in
  (t2, w2) = (Settled (fst (findOrCreateUserByEmail e w)),
              snd (findOrCreateUserByEmail e w)).
Proof.
  unfold findOrCreateUserByEmail, bind, ret. cbn [task_step].
  destruct (findOneBy e w) as [[[found|]|err] w1]; cbn [task_step]; try reflexivity.
  destruct (save _ w1) as [[saved|err] w2]; reflexivity.
Qed.

End ServiceFacts.

(** ** The middleware *)

Lemma truthy_Some e : e <> "" -> truthy (Some e) = Some e.
Proof. destruct e; [congruence | reflexivity]. Qed.

Lemma truthy_None s : s = None \/ s = Some "" -> truthy s = None.
Proof. intros [->| ->]; reflexivity. Qed.

Lemma isWhitelisted_prefix wl req :
  isWhitelisted wl req = true <->
  exists url, In url wl /\ String.prefix url (path req) = true.
Proof. unfold isWhitelisted. apply existsb_exists. Qed.

Section MiddlewareFacts.
Context {W : Type} `{Repository W}.
Variable wl : list string.

(** Out of scope: the request is handed on untouched. *)
Lemma middleware_not_in_scope req env :
  RegExp.test URL_CASE_INSENSITIVE_REGEX (path req) = false ->
  middleware wl req env = (Return (req, Next), env).
Proof. intros Hci. unfold middleware. now rewrite Hci. Qed.

Lemma middleware_case_mismatch req env :
  RegExp.test URL_CASE_INSENSITIVE_REGEX (path req) = true ->
  RegExp.test URL_CASE_SENSITIVE_REGEX (path req) = false ->
  middleware wl req env = (Return (req, Json 401 "Unauthorized Access - Invalid Path Structure"), env).
Proof. intros Hci Hcs. unfold middleware. now rewrite Hci, Hcs. Qed.

Lemma middleware_whitelisted req env :
  RegExp.test URL_CASE_SENSITIVE_REGEX (path req) = true ->
  isWhitelisted wl req = true ->
  middleware wl req env = (Return (req, Next), env).
Proof.
  intros Hcs Hwl. unfold middleware.
  now rewrite (case_sensitive_in_scope _ Hcs), Hcs, Hwl.
Qed.

Lemma middleware_no_header req env :
  RegExp.test URL_CASE_SENSITIVE_REGEX (path req) = true ->
  isWhitelisted wl req = false ->
  truthy (headers req !! "x-forwarded-email") = None ->
  middleware wl req env = (Return (req, Json 401 "Unauthorized: X-Forwarded-Email header is required"), env).
Proof.
  intros Hcs Hwl Hhdr. unfold middleware.
  now rewrite (case_sensitive_in_scope _ Hcs), Hcs, Hwl, Hhdr.
Qed.

(** On a protected path with the header, the middleware is one call of the
    service followed by one of two endings. *)
Lemma middleware_protected req env e :
  RegExp.test URL_CASE_SENSITIVE_REGEX (path req) = true ->
  isWhitelisted wl req = false ->
  truthy (headers req !! "x-forwarded-email") = Some e ->
  middleware wl req env =
    match findOrCreateUserByEmail e (storage env) with
    | (Return u, w') =>
        (Return (set_user req (loggedInUserShape u), Next),
         {| storage := w'; calls := calls env ++ [FindOrCreateUserByEmail e] |})
    | (Throw err, w') =>
        (Return (req, Json 500 "Internal Server Error during authentication"),
         {| storage := w';
            calls := (calls env ++ [FindOrCreateUserByEmail e]) ++
                     [LoggerError "Error during X-Forwarded-Email authentication:" err] |})
    end.
Proof.
  intros Hcs Hwl Hhdr. unfold middleware.
  rewrite (case_sensitive_in_scope _ Hcs), Hcs, Hwl, Hhdr.
  unfold flowiseUserService_findOrCreateUserByEmail, try_catch, bind,
    record, on_storage, ret. cbn [storage calls].
  destruct (findOrCreateUserByEmail e (storage env)) as [[u|err] w'];
    reflexivity.
Qed.

End MiddlewareFacts.

Section MiddlewareCalls.
Context {W : Type} `{Repository W}.
Variable wl : list string.

(** Whatever the request, the calls the middleware adds are calls of the
    service and of the logger. *)
Lemma middleware_calls req env :
  exists new,
    calls (snd (middleware wl req env)) = calls env ++ new /\
    forallb (fun c => negb (is_ValidateAPIKey c)) new = true.
Proof.
  destruct (RegExp.test URL_CASE_INSENSITIVE_REGEX (path req)) eqn:Hci;
    [|exists []; now rewrite middleware_not_in_scope, app_nil_r].
  destruct (RegExp.test URL_CASE_SENSITIVE_REGEX (path req)) eqn:Hcs;
    [|exists []; now rewrite middleware_case_mismatch, app_nil_r].
  destruct (isWhitelisted wl req) eqn:Hwl;
    [exists []; now rewrite middleware_whitelisted, app_nil_r|].
  destruct (truthy (headers req !! "x-forwarded-email")) as [e|] eqn:Hhdr;
    [|exists []; now rewrite middleware_no_header, app_nil_r].
  rewrite (middleware_protected wl req env e Hcs Hwl Hhdr).
  destruct (findOrCreateUserByEmail e (storage env)) as [[u|err] w'];
    cbn [snd calls].
  - now exists [FindOrCreateUserByEmail e].
  - eexists [_; _]. now rewrite <- app_assoc.
Qed.

(** The middleware reads the path and one header; the identity it was given only
    travels through. *)
Lemma middleware_reads req1 req2 env :
  path req1 = path req2 ->
  user req1 = user req2 ->
  headers req1 !! "x-forwarded-email" = headers req2 !! "x-forwarded-email" ->
  decision (fst (middleware wl req1 env)) = decision (fst (middleware wl req2 env)) /\
  snd (middleware wl req1 env) = snd (middleware wl req2 env).
Proof.
  intros Hpath Huser Hhdr. unfold middleware, isWhitelisted.
  rewrite <- Hpath, <- Hhdr.
  destruct (RegExp.test URL_CASE_INSENSITIVE_REGEX (path req1));
    [|now cbn; rewrite Huser].
  destruct (RegExp.test URL_CASE_SENSITIVE_REGEX (path req1));
    [|now cbn; rewrite Huser].
  destruct (existsb _ wl); [now cbn; rewrite Huser|].
  destruct (truthy (headers req1 !! "x-forwarded-email")) as [e|];
    [|now cbn; rewrite Huser].
  unfold flowiseUserService_findOrCreateUserByEmail, try_catch, bind,
    record, on_storage, ret. cbn [storage calls].
  destruct (findOrCreateUserByEmail e (storage env)) as [[u|err] w'];
    cbn; [easy | now rewrite Huser].
Qed.

(** Every run of the middleware is of one of two kinds: the allow-with-identity
    transition, which writes the identity built from the returned record, or
    a run that returns the request it was given. *)
Lemma middleware_attaches req env :
  (exists u, allows_with_identity wl req env u /\
             fst (middleware wl req env) =
               Return (set_user req (loggedInUserShape u), Next)) \/
  ((forall u, ~ allows_with_identity wl req env u) /\
   exists o, fst (middleware wl req env) = Return (req, o)).
Proof.
  unfold allows_with_identity.
  destruct (RegExp.test URL_CASE_INSENSITIVE_REGEX (path req)) eqn:Hci.
  2:{ rewrite middleware_not_in_scope by exact Hci. right.
      split; [|now exists Next].
      intros u (Hcs & _). apply case_sensitive_in_scope in Hcs. congruence. }
  destruct (RegExp.test URL_CASE_SENSITIVE_REGEX (path req)) eqn:Hcs.
  2:{ rewrite middleware_case_mismatch by assumption. right.
      split; [|now eexists]. intros u (Hcs' & _). congruence. }
  destruct (isWhitelisted wl req) eqn:Hwl.
  { rewrite middleware_whitelisted by assumption. right.
    split; [|now eexists]. intros u (_ & Hwl' & _). congruence. }
  destruct (truthy (headers req !! "x-forwarded-email")) as [e|] eqn:Hhdr.
  2:{ rewrite middleware_no_header by assumption. right.
      split; [|now eexists]. intros u (_ & _ & e & He & _). congruence. }
  rewrite (middleware_protected wl req env e Hcs Hwl Hhdr).
  destruct (findOrCreateUserByEmail e (storage env)) as [[u|err] w'] eqn:Hstore;
    cbn [fst].
  - left. exists u. repeat split. exists e. now rewrite Hstore.
  - right. split; [|now eexists]. intros u (_ & _ & e' & He' & Hret).
    assert (e' = e) as -> by congruence. rewrite Hstore in Hret. discriminate.
Qed.

End MiddlewareCalls.

(** ** Claims about the middleware *)

(** C1. On an in-scope path (the case-sensitive pattern matches) that is not
    whitelisted, with a non-empty [X-Forwarded-Email] header, when the
    service resolves the header value to a record, the middleware calls the service
    exactly once, with the header value, and hands the request on with an
    identity whose email is the header value, whose [isAuthenticatedByHeader]
    is [true] and whose organization, workspace, role and permission fields
    are empty, false or absent. *)
Theorem C1_forwarded_email_allows_with_identity
    {W : Type} `{LawfulRepository W}
    (wl : list string) (req : Request) (env : Env W)
    (e : string) (u : FlowiseUser) (w' : W) :
  RegExp.test URL_CASE_SENSITIVE_REGEX (path req) = true ->
  isWhitelisted wl req = false ->
  headers req !! "x-forwarded-email" = Some e ->
  e <> "" ->
  findOrCreateUserByEmail e (storage env) = (Return u, w') ->
  exists identity,
    middleware wl req env =
      (Return (set_user req identity, Next),
       {| storage := w'; calls := calls env ++ [FindOrCreateUserByEmail e] |}) /\
    user_id identity = id u /\
    user_email identity = e /\
    isAuthenticatedByHeader identity = Some true /\
    roleId identity = "" /\
    activeOrganizationId identity = "" /\
    activeOrganizationSubscriptionId identity = "" /\
    activeOrganizationCustomerId identity = "" /\
    activeOrganizationProductId identity = "" /\
    isOrganizationAdmin identity = false /\
    activeWorkspaceId identity = "" /\
    activeWorkspace identity = "" /\
    assignedWorkspaces identity = [] /\
    isApiKeyValidated identity = false /\
    permissions identity = [] /\
    features identity = empty /\
    ssoRefreshToken identity = None /\
    ssoToken identity = None /\
    ssoProvider identity = None.
Proof.
  intros Hcs Hwl Hhdr Hne Hstore.
  exists (loggedInUserShape u). split.
  - rewrite (middleware_protected wl req env e Hcs Hwl).
    + now rewrite Hstore.
    + rewrite Hhdr. now apply truthy_Some.
  - cbn. rewrite (findOrCreateUserByEmail_email _ _ _ _ Hstore).
    repeat split.
Qed.

Lemma C1_witness :
  exists identity env',
    middleware example_whitelist
      (request "/api/v1/chatflows" [("x-forwarded-email", "new.user@example.com")])
      (fresh_env empty_db) = (Return (identity, Next), env') /\
    (user_email <$> user identity) = Some "new.user@example.com" /\
    calls env' = [FindOrCreateUserByEmail "new.user@example.com"].
Proof.
  destruct (C1_forwarded_email_allows_with_identity example_whitelist
              (request "/api/v1/chatflows"
                 [("x-forwarded-email", "new.user@example.com")])
              (fresh_env empty_db) "new.user@example.com"
              {| id := "user-0"; email := "new.user@example.com";
                 createdDate := 0; updatedDate := 0 |}
              (snd (findOrCreateUserByEmail "new.user@example.com" empty_db)))
    as (identity & Hrun & _ & Hemail & _);
    [reflexivity | reflexivity | reflexivity | discriminate | reflexivity |].
  eexists _, _. split; [exact Hrun|]. split; [|reflexivity].
  cbn. now rewrite Hemail.
Defined.

(** C4. On an in-scope path that is not whitelisted, a request whose
    [X-Forwarded-Email] header is absent or empty is answered 401 with the
    message "Unauthorized: X-Forwarded-Email header is required"; the service
    is not called and the storage is not touched. *)
Theorem C4_missing_header_denied
    {W : Type} `{Repository W} (wl : list string) (req : Request) (env : Env W) :
  RegExp.test URL_CASE_SENSITIVE_REGEX (path req) = true ->
  isWhitelisted wl req = false ->
  headers req !! "x-forwarded-email" = None \/
  headers req !! "x-forwarded-email" = Some "" ->
  middleware wl req env =
    (Return (req, Json 401 "Unauthorized: X-Forwarded-Email header is required"),
     env).
Proof.
  intros Hcs Hwl Hhdr. apply middleware_no_header; auto using truthy_None.
Qed.

Lemma C4_witness :
  middleware example_whitelist (request "/api/v1/chatflows" []) (fresh_env empty_db) =
    (Return (request "/api/v1/chatflows" [],
             Json 401 "Unauthorized: X-Forwarded-Email header is required"),
     fresh_env empty_db) /\
  middleware example_whitelist
    (request "/api/v1/chatflows" [("x-forwarded-email", "")]) (fresh_env seeded_db) =
    (Return (request "/api/v1/chatflows" [("x-forwarded-email", "")],
             Json 401 "Unauthorized: X-Forwarded-Email header is required"),
     fresh_env seeded_db).
Proof.
  split.
  - apply (C4_missing_header_denied example_whitelist
             (request "/api/v1/chatflows" []) (fresh_env empty_db));
      [reflexivity | reflexivity | left; reflexivity].
  - apply (C4_missing_header_denied example_whitelist
             (request "/api/v1/chatflows" [("x-forwarded-email", "")])
             (fresh_env seeded_db));
      [reflexivity | reflexivity | right; reflexivity].
Defined.

(** C5. The decision of the middleware does not depend on any credential other than
    the forwarded email: two requests that differ only in their
    [Authorization] header get the same decision and leave the same calls and
    the same storage behind, and no run of the middleware calls the bearer-token
    validation. *)
Theorem C5_other_credentials_ignored
    {W : Type} `{Repository W} (wl : list string)
    (req1 req2 : Request) (env : Env W) :
  path req1 = path req2 ->
  user req1 = user req2 ->
  (forall k, k <> "authorization" -> headers req1 !! k = headers req2 !! k) ->
  decision (fst (middleware wl req1 env)) = decision (fst (middleware wl req2 env)) /\
  snd (middleware wl req1 env) = snd (middleware wl req2 env) /\
  exists new,
    calls (snd (middleware wl req1 env)) = calls env ++ new /\
    forallb (fun c => negb (is_ValidateAPIKey c)) new = true.
Proof.
  intros Hpath Huser Hhdrs.
  destruct (middleware_reads wl req1 req2 env Hpath Huser) as [Hdec Henv].
  - apply Hhdrs. discriminate.
  - repeat split; try assumption. apply middleware_calls.
Qed.

Lemma C5_witness :
  let plain :=
    request "/api/v1/chatflows" [("x-forwarded-email", "existing.user@example.com")] in
  let with_bearer :=
    request "/api/v1/chatflows"
      [("x-forwarded-email", "existing.user@example.com");
       ("authorization", "Bearer valid-api-key")] in
  decision (fst (middleware example_whitelist plain (fresh_env seeded_db))) =
    decision (fst (middleware example_whitelist with_bearer (fresh_env seeded_db))) /\
  calls (snd (middleware example_whitelist with_bearer (fresh_env seeded_db))) =
    [FindOrCreateUserByEmail "existing.user@example.com"].
Proof.
  intros plain with_bearer.
  destruct (C5_other_credentials_ignored example_whitelist plain with_bearer
              (fresh_env seeded_db)) as (Hdec & _ & _).
  - reflexivity.
  - reflexivity.
  - intros k Hk. unfold plain, with_bearer, request. cbn [headers].
    change (list_to_map [("x-forwarded-email", "existing.user@example.com");
                         ("authorization", "Bearer valid-api-key")])
      with (<["x-forwarded-email" := "existing.user@example.com"]>
              (<["authorization" := "Bearer valid-api-key"]>
                 (empty : gmap string string))).
    change (list_to_map [("x-forwarded-email", "existing.user@example.com")])
      with (<["x-forwarded-email" := "existing.user@example.com"]>
              (empty : gmap string string)).
    destruct (decide (k = "x-forwarded-email")) as [->|Hne].
    + now rewrite !lookup_insert_eq.
    + rewrite !lookup_insert_ne by congruence. reflexivity.
  - split; [exact Hdec | reflexivity].
Defined.

(** C6. A path the pattern matches only when case is ignored (such as
    [/API/v1/chatflows]) is answered 401 with the message "Unauthorized
    Access - Invalid Path Structure", which is not the message of the
    missing header; neither the header nor the service is consulted. *)
Theorem C6_case_mismatch_denied
    {W : Type} `{Repository W} (wl : list string) (req : Request) (env : Env W) :
  RegExp.test URL_CASE_INSENSITIVE_REGEX (path req) = true ->
  RegExp.test URL_CASE_SENSITIVE_REGEX (path req) = false ->
  middleware wl req env =
    (Return (req, Json 401 "Unauthorized Access - Invalid Path Structure"), env) /\
  "Unauthorized Access - Invalid Path Structure" <>
    "Unauthorized: X-Forwarded-Email header is required".
Proof.
  intros Hci Hcs. split; [now apply middleware_case_mismatch | discriminate].
Qed.

Lemma C6_witness :
  middleware example_whitelist
    (request "/API/v1/chatflows" [("x-forwarded-email", "new.user@example.com")])
    (fresh_env empty_db) =
    (Return (request "/API/v1/chatflows"
               [("x-forwarded-email", "new.user@example.com")],
             Json 401 "Unauthorized Access - Invalid Path Structure"),
     fresh_env empty_db).
Proof.
  apply (C6_case_mismatch_denied example_whitelist
           (request "/API/v1/chatflows"
              [("x-forwarded-email", "new.user@example.com")])
           (fresh_env empty_db)); reflexivity.
Defined.

(** C7. On an in-scope path that is not whitelisted, with a non-empty
    [X-Forwarded-Email] header, if the call of the service throws, whatever
    the error, the middleware answers 500 with the message "Internal Server Error
    during authentication"; the service was called once and is not called
    again, and the request carries no new identity. *)
Theorem C7_store_failure_is_500
    {W : Type} `{Repository W} (wl : list string) (req : Request) (env : Env W)
    (e : string) (err : Error) (w' : W) :
  RegExp.test URL_CASE_SENSITIVE_REGEX (path req) = true ->
  isWhitelisted wl req = false ->
  headers req !! "x-forwarded-email" = Some e ->
  e <> "" ->
  findOrCreateUserByEmail e (storage env) = (Throw err, w') ->
  middleware wl req env =
    (Return (req, Json 500 "Internal Server Error during authentication"),
     {| storage := w';
        calls := (calls env ++ [FindOrCreateUserByEmail e]) ++
                 [LoggerError "Error during X-Forwarded-Email authentication:" err] |}).
Proof.
  intros Hcs Hwl Hhdr Hne Hstore.
  rewrite (middleware_protected wl req env e Hcs Hwl).
  - now rewrite Hstore.
  - rewrite Hhdr. now apply truthy_Some.
Qed.

Lemma C7_witness :
  let req := request "/api/v1/chatflows" [("x-forwarded-email", "new.user@example.com")] in
  middleware example_whitelist req {| storage := offline; calls := [] |} =
    (Return (req, Json 500 "Internal Server Error during authentication"),
     {| storage := offline;
        calls := [FindOrCreateUserByEmail "new.user@example.com";
                  LoggerError "Error during X-Forwarded-Email authentication:"
                    (DriverError "connect ECONNREFUSED")] |}).
Proof.
  intros req.
  apply (C7_store_failure_is_500 example_whitelist req
           {| storage := offline; calls := [] |} "new.user@example.com"
           (DriverError "connect ECONNREFUSED") offline);
    [reflexivity | reflexivity | reflexivity | discriminate | reflexivity].
Defined.

(** C8. A request whose path the pattern does not match, even with case
    ignored, and a request whose in-scope path starts with a whitelisted
    prefix, are handed on as they came, without an identity from the middleware;
    the service is not called and the storage is not touched. *)
Theorem C8_out_of_scope_and_whitelisted_pass
    {W : Type} `{Repository W} (wl : list string) (req : Request) (env : Env W) :
  RegExp.test URL_CASE_INSENSITIVE_REGEX (path req) = false \/
  (RegExp.test URL_CASE_SENSITIVE_REGEX (path req) = true /\
   exists url, In url wl /\ String.prefix url (path req) = true) ->
  middleware wl req env = (Return (req, Next), env).
Proof.
  intros [Hout | [Hcs Hwl]].
  - now apply middleware_not_in_scope.
  - apply middleware_whitelisted; [exact Hcs | now apply isWhitelisted_prefix].
Qed.

Lemma C8_witness :
  middleware example_whitelist (request "/assets/logo.png" []) (fresh_env empty_db) =
    (Return (request "/assets/logo.png" [], Next), fresh_env empty_db) /\
  middleware example_whitelist (request "/api/v1/marketplaces/chatflows" [])
    (fresh_env empty_db) =
    (Return (request "/api/v1/marketplaces/chatflows" [], Next), fresh_env empty_db).
Proof.
  split.
  - apply (C8_out_of_scope_and_whitelisted_pass example_whitelist
             (request "/assets/logo.png" []) (fresh_env empty_db)).
    left. reflexivity.
  - apply (C8_out_of_scope_and_whitelisted_pass example_whitelist
             (request "/api/v1/marketplaces/chatflows" []) (fresh_env empty_db)).
    right. split; [reflexivity|].
    exists "/api/v1/marketplaces/". split; [left; reflexivity | reflexivity].
Defined.

(** C9, as stated, fails: a request for [/assets/logo.png] reaches an allow
    decision and no identity is attached to it. *)
Lemma C9_counterexample :
  let r := fst (middleware example_whitelist (request "/assets/logo.png" [])
                  (fresh_env empty_db)) in
  ~ (identity_attached r <-> allowed r).
Proof.
  intros r [_ Hattach].
  destruct Hattach as (req' & o & u & Hrun & Huser).
  - now exists (request "/assets/logo.png" []).
  - injection Hrun as <- _. discriminate Huser.
Qed.

(** C9, amended. The middleware writes an identity on the request exactly on the
    allow-with-identity transition (protected path, usable header, service
    call returned): there the request goes on with the identity built from
    the returned record; in every other run -- the anonymous allows of
    out-of-scope and whitelisted paths and every deny -- the request leaves
    the middleware as it came.  In particular a run that answers with a status
    never changes the request, and a request that came without an identity
    leaves with one if and only if the run was that transition. *)
Theorem C9_identity_only_on_allow_with_identity
    {W : Type} `{Repository W} (wl : list string) (req : Request) (env : Env W) :
  ((exists u, allows_with_identity wl req env u /\
              fst (middleware wl req env) =
                Return (set_user req (loggedInUserShape u), Next)) \/
   ((forall u, ~ allows_with_identity wl req env u) /\
    exists o, fst (middleware wl req env) = Return (req, o))) /\
  (forall req' status msg,
     fst (middleware wl req env) = Return (req', Json status msg) -> req' = req) /\
  (user req = None ->
     (identity_attached (fst (middleware wl req env)) <->
      exists u, allows_with_identity wl req env u)).
Proof.
  pose proof (middleware_attaches wl req env) as Hcases.
  split; [exact Hcases|]. split.
  - intros req' status msg Hrun.
    destruct Hcases as [(u & _ & Hu) | (_ & o & Ho)]; congruence.
  - intros Hnone. split.
    + intros (req' & o & u0 & Hrun & Huser).
      destruct Hcases as [(u & Hawi & _) | (_ & o' & Ho)]; [now exists u|].
      rewrite Ho in Hrun. injection Hrun as <- _. congruence.
    + intros (u & Hawi).
      destruct Hcases as [(u' & _ & Hu) | (Hnever & _)];
        [|now destruct (Hnever u)].
      now exists (set_user req (loggedInUserShape u')), Next, (loggedInUserShape u').
Qed.

Lemma C9_witness :
  identity_attached
    (fst (middleware example_whitelist
            (request "/api/v1/chatflows"
               [("x-forwarded-email", "existing.user@example.com")])
            (fresh_env seeded_db))).
Proof.
  apply (C9_identity_only_on_allow_with_identity example_whitelist
           (request "/api/v1/chatflows"
              [("x-forwarded-email", "existing.user@example.com")])
           (fresh_env seeded_db)); [reflexivity|].
  exists existing_user. split; [reflexivity|]. split; [reflexivity|].
  exists "existing.user@example.com". split; reflexivity.
Defined.

(** C10. Scope is decided by containment of [/api/v1/], slash included, at
    any position of the path, and by nothing else.  The inner pattern
    matches exactly the paths that contain that text, the outer one exactly
    those whose lower-cased form contains it.  A path that contains it goes,
    unless whitelisted, through the header check (no header: 401; header:
    the service is called with it).  A path that does not contain it never
    gets that far: it is handed on untouched if its lower-cased form does
    not contain the text either, and answered with the invalid-path 401
    otherwise.  The bare path [/api/v1] is of the first kind: out of scope
    and handed on untouched. *)
Theorem C10_scope_is_substring_containment
    {W : Type} `{Repository W} (wl : list string) (req : Request) (env : Env W) :
  (RegExp.test URL_CASE_SENSITIVE_REGEX (path req) = true <->
   contains "/api/v1/" (path req)) /\
  (RegExp.test URL_CASE_INSENSITIVE_REGEX (path req) = true <->
   contains "/api/v1/" (lowercase (path req))) /\
  (contains "/api/v1/" (path req) ->
   isWhitelisted wl req = false ->
   match truthy (headers req !! "x-forwarded-email") with
   | None =>
       middleware wl req env =
         (Return (req, Json 401 "Unauthorized: X-Forwarded-Email header is required"),
          env)
   | Some e =>
       exists rest,
         calls (snd (middleware wl req env)) =
           calls env ++ FindOrCreateUserByEmail e :: rest
   end) /\
  (~ contains "/api/v1/" (lowercase (path req)) ->
   middleware wl req env = (Return (req, Next), env)) /\
  (~ contains "/api/v1/" (path req) ->
   contains "/api/v1/" (lowercase (path req)) ->
   middleware wl req env =
     (Return (req, Json 401 "Unauthorized Access - Invalid Path Structure"), env)) /\
  (path req = "/api/v1" ->
   middleware wl req env = (Return (req, Next), env)).
Proof.
  assert (Hcs : RegExp.test URL_CASE_SENSITIVE_REGEX (path req) = true <->
                contains "/api/v1/" (path req)).
  { split.
    - apply search_exact_inv.
    - intros (pre & post & ->). apply search_contains. }
  assert (Hci : RegExp.test URL_CASE_INSENSITIVE_REGEX (path req) = true <->
                contains "/api/v1/" (lowercase (path req))).
  { unfold RegExp.test. cbn [RegExp.ignoreCase RegExp.source URL_CASE_INSENSITIVE_REGEX].
    rewrite (search_lower "/api/v1/" (path req) eq_refl). split.
    - apply search_exact_inv.
    - intros (pre & post & ->). apply search_contains. }
  split; [exact Hcs|]. split; [exact Hci|]. split; [|split; [|split]].
  - intros Hin Hwl. apply Hcs in Hin.
    destruct (truthy (headers req !! "x-forwarded-email")) as [e|] eqn:Hhdr.
    + rewrite (middleware_protected wl req env e Hin Hwl Hhdr).
      destruct (findOrCreateUserByEmail e (storage env)) as [[u|err] w'];
        cbn [snd calls].
      * now exists [].
      * eexists [_]. now rewrite <- app_assoc.
    + now apply middleware_no_header.
  - intros Hout. apply middleware_not_in_scope.
    destruct (RegExp.test URL_CASE_INSENSITIVE_REGEX (path req)); [|reflexivity].
    exfalso. apply Hout, Hci. reflexivity.
  - intros Hout Hfold. apply middleware_case_mismatch; [now apply Hci|].
    destruct (RegExp.test URL_CASE_SENSITIVE_REGEX (path req)); [|reflexivity].
    exfalso. apply Hout, Hcs. reflexivity.
  - intros Hbare. apply middleware_not_in_scope. now rewrite Hbare.
Qed.

Lemma C10_witness :
  let req := request "/foo/api/v1/bar" [] in
  let shouted := request "/API/V1/chatflows" [] in
  let bare := request "/api/v1" [] in
  RegExp.test URL_CASE_SENSITIVE_REGEX "/foo/api/v1/bar" = true /\
  middleware example_whitelist req (fresh_env empty_db) =
    (Return (req, Json 401 "Unauthorized: X-Forwarded-Email header is required"),
     fresh_env empty_db) /\
  ~ contains "/api/v1/" "/API/V1/chatflows" /\
  middleware example_whitelist shouted (fresh_env empty_db) =
    (Return (shouted, Json 401 "Unauthorized Access - Invalid Path Structure"),
     fresh_env empty_db) /\
  ~ contains "/api/v1/" "/api/v1" /\
  middleware example_whitelist bare (fresh_env empty_db) =
    (Return (bare, Next), fresh_env empty_db).
Proof.
  intros req shouted bare.
  destruct (C10_scope_is_substring_containment example_whitelist req
              (fresh_env empty_db)) as (Hcs & _ & Hcheck & _).
  destruct (C10_scope_is_substring_containment example_whitelist shouted
              (fresh_env empty_db)) as (Hcs' & _ & _ & _ & Hfold & _).
  destruct (C10_scope_is_substring_containment example_whitelist bare
              (fresh_env empty_db)) as (Hcs'' & _ & _ & _ & _ & Hbare).
  assert (Hin : contains "/api/v1/" (path req)) by (now exists "/foo", "bar").
  assert (Hout : ~ contains "/api/v1/" (path shouted)).
  { intros Hc. apply Hcs' in Hc. discriminate Hc. }
  assert (Hout' : ~ contains "/api/v1/" (path bare)).
  { intros Hc. apply Hcs'' in Hc. discriminate Hc. }
  split; [now apply Hcs|]. split; [exact (Hcheck Hin eq_refl)|].
  split; [exact Hout|]. split.
  - apply (Hfold Hout). now exists "", "chatflows".
  - split; [exact Hout'|]. exact (Hbare eq_refl).
Defined.

(** ** The table *)

Section TableFacts.

Lemma find_absent e l :
  ~ In e (map email l) -> List.find (has_email e) l = None.
Proof.
  induction l as [|v l IH]; intros Hnot; [reflexivity|].
  cbn [List.find]. unfold has_email at 1.
  destruct (String.eqb_spec (email v) e) as [Heq|Hne].
  - exfalso. apply Hnot. left. exact Heq.
  - apply IH. intros Hin. apply Hnot. right. exact Hin.
Qed.

Lemma find_present e l u :
  ~ In e (map email l) -> email u = e ->
  List.find (has_email e) (l ++ [u]) = Some u.
Proof.
  intros Hnot Hu. induction l as [|v l IH]; cbn [app List.find].
  - unfold has_email. now rewrite Hu, String.eqb_refl.
  - unfold has_email at 1.
    destruct (String.eqb_spec (email v) e) as [Heq|Hne].
    + exfalso. apply Hnot. left. exact Heq.
    + apply IH. intros Hin. apply Hnot. right. exact Hin.
Qed.

Lemma find_unique l : forall u,
  List.NoDup (map email l) -> In u l -> List.find (has_email (email u)) l = Some u.
Proof.
  induction l as [|v l IH]; intros u Hnd Hin; [destruct Hin|].
  cbn [map] in Hnd. apply NoDup_cons_iff in Hnd as [Hv Hnd].
  cbn [List.find]. unfold has_email at 1.
  destruct Hin as [->|Hin].
  - now rewrite String.eqb_refl.
  - destruct (String.eqb_spec (email v) (email u)) as [Heq|Hne].
    + exfalso. apply Hv. rewrite Heq. now apply in_map.
    + now apply IH.
Qed.

Lemma existsb_find e l :
  existsb (has_email e) l = match List.find (has_email e) l with
                            | Some _ => true
                            | None => false
                            end.
Proof.
  induction l as [|v l IH]; [reflexivity|]. cbn [existsb List.find].
  destruct (has_email e v); [reflexivity | exact IH].
Qed.

Lemma records_of_absent e l :
  ~ In e (map email l) -> filter (fun u => email u = e) l = [].
Proof.
  induction l as [|v l IH]; intros Hnot; [reflexivity|].
  rewrite filter_cons. destruct (decide (email v = e)) as [Heq|Hne].
  - exfalso. apply Hnot. left. exact Heq.
  - apply IH. intros Hin. apply Hnot. right. exact Hin.
Qed.

Lemma records_of_inserted e l u :
  ~ In e (map email l) -> email u = e ->
  filter (fun u => email u = e) (l ++ [u]) = [u].
Proof.
  intros Hnot Hu. rewrite filter_app, (records_of_absent _ _ Hnot).
  rewrite filter_cons, decide_True by exact Hu. reflexivity.
Qed.

Lemma unique_emails_inserted l u :
  List.NoDup (map email l) -> ~ In (email u) (map email l) ->
  List.NoDup (map email (l ++ [u])).
Proof.
  intros Hnd Hnot. rewrite map_app. cbn [map].
  apply List.NoDup_rev in Hnd. rewrite <- (rev_involutive (_ ++ _)).
  apply List.NoDup_rev. rewrite rev_app_distr. cbn [rev app].
  apply NoDup_cons_iff. split; [|exact Hnd].
  now rewrite <- in_rev.
Qed.

(** The service on the table: a hit returns the row and leaves the table
    alone; a miss inserts one row. *)
Lemma service_hit db e u :
  List.find (has_email e) (rows db) = Some u ->
  findOrCreateUserByEmail e db = (Return u, db).
Proof.
  intros Hfind. unfold findOrCreateUserByEmail, bind, ret.
  cbn [findOneBy Db_Repository]. unfold db_findOneBy. now rewrite Hfind.
Qed.

Lemma save_miss db e :
  List.find (has_email e) (rows db) = None ->
  db_save {| draft_email := e |} db = (Return (inserted_row e db), after_insert e db).
Proof.
  intros Hfind. unfold db_save. cbn [draft_email].
  now rewrite existsb_find, Hfind.
Qed.

Lemma save_hit db e u :
  List.find (has_email e) (rows db) = Some u ->
  db_save {| draft_email := e |} db = (Throw unique_violation, db).
Proof.
  intros Hfind. unfold db_save. cbn [draft_email].
  now rewrite existsb_find, Hfind.
Qed.

Lemma service_miss db e :
  List.find (has_email e) (rows db) = None ->
  findOrCreateUserByEmail e db = (Return (inserted_row e db), after_insert e db).
Proof.
  intros Hfind. unfold findOrCreateUserByEmail, bind, ret.
  cbn [findOneBy save Db_Repository]. unfold db_findOneBy.
  now rewrite Hfind, (save_miss _ _ Hfind).
Qed.

End TableFacts.

(** ** Claims about the identity store *)

(** C3. On a table with at most one row per email, [findOrCreateUserByEmail]
    (a) returns the row that carries the email, as it is, and leaves the
    table as it was; (b) when no row carries the email, appends exactly one
    row, with that email, and returns it; (c) called twice in a row, returns
    the same row (so the same id) both times, the second call changes
    nothing, and the table still has at most one row per email. *)
Theorem C3_findOrCreateUserByEmail_idempotent (db : Db) (e : string) :
  unique_emails db ->
  (forall u, In u (rows db) -> email u = e ->
     findOrCreateUserByEmail e db = (Return u, db)) /\
  (~ In e (map email (rows db)) ->
     exists u db',
       findOrCreateUserByEmail e db = (Return u, db') /\
       email u = e /\
       rows db' = rows db ++ [u] /\
       records_of e db' = [u]) /\
  (exists u1 db1 u2 db2,
     findOrCreateUserByEmail e db = (Return u1, db1) /\
     findOrCreateUserByEmail e db1 = (Return u2, db2) /\
     id u1 = id u2 /\ u1 = u2 /\ db2 = db1 /\
     unique_emails db2 /\ records_of e db2 = [u2]).
Proof.
  intros Huniq.
  assert (Hhit : forall u, In u (rows db) -> email u = e ->
                   findOrCreateUserByEmail e db = (Return u, db)).
  { intros u Hin <-. apply service_hit. now apply find_unique. }
  assert (Hmiss : ~ In e (map email (rows db)) ->
            findOrCreateUserByEmail e db =
              (Return (inserted_row e db), after_insert e db) /\
            findOrCreateUserByEmail e (after_insert e db) =
              (Return (inserted_row e db), after_insert e db) /\
            unique_emails (after_insert e db) /\
            records_of e (after_insert e db) = [inserted_row e db]).
  { intros Hnot. split; [|split; [|split]].
    - apply service_miss. now apply find_absent.
    - apply service_hit. cbn [rows after_insert]. now apply find_present.
    - unfold unique_emails. cbn [rows after_insert].
      now apply unique_emails_inserted.
    - unfold records_of. cbn [rows after_insert].
      now apply records_of_inserted. }
  split; [exact Hhit|]. split.
  - intros Hnot. destruct (Hmiss Hnot) as (Hrun & _ & _ & Hrec).
    now exists (inserted_row e db), (after_insert e db).
  - destruct (List.find (has_email e) (rows db)) as [u|] eqn:Hfind.
    + pose proof (find_has_email _ _ _ Hfind) as Hu.
      apply find_some in Hfind as [Hin _].
      exists u, db, u, db. rewrite (Hhit u Hin Hu). repeat split; try assumption.
      unfold records_of. apply list_elem_of_In, list_elem_of_split in Hin.
      destruct Hin as (l1 & l2 & Hrows). unfold unique_emails in Huniq.
      rewrite Hrows in *. rewrite map_app in Huniq. cbn [map] in Huniq.
      apply List.NoDup_remove_2 in Huniq. rewrite Hu in Huniq.
      rewrite filter_app, filter_cons, decide_True by exact Hu.
      rewrite !records_of_absent; [reflexivity | |];
        intros Hin; apply Huniq, in_or_app; auto.
    + assert (Hnot : ~ In e (map email (rows db))).
      { intros (u & Hu & Hin)%in_map_iff.
        apply (find_none _ _ Hfind) in Hin. unfold has_email in Hin.
        rewrite Hu, String.eqb_refl in Hin. discriminate. }
      destruct (Hmiss Hnot) as (Hrun1 & Hrun2 & Huniq' & Hrec).
      exists (inserted_row e db), (after_insert e db),
             (inserted_row e db), (after_insert e db).
      repeat split; assumption.
Qed.

Lemma C3_witness :
  findOrCreateUserByEmail "existing.user@example.com" seeded_db =
    (Return existing_user, seeded_db) /\
  exists u db',
    findOrCreateUserByEmail "new.user@example.com" seeded_db = (Return u, db') /\
    rows db' = [existing_user; u].
Proof.
  assert (Huniq : unique_emails seeded_db).
  { repeat constructor. intros []. }
  destruct (C3_findOrCreateUserByEmail_idempotent seeded_db
              "existing.user@example.com" Huniq) as (Hhit & _ & _).
  destruct (C3_findOrCreateUserByEmail_idempotent seeded_db
              "new.user@example.com" Huniq) as (_ & Hmiss & _).
  split.
  - apply Hhit; [left; reflexivity | reflexivity].
  - destruct Hmiss as (u & db' & Hrun & _ & Hrows & _).
    + cbn. intros [Heq|[]]. discriminate Heq.
    + exists u, db'. split; [exact Hrun | exact Hrows].
Defined.

(** ** Calls in flight *)

Section Scheduling.
Context {W : Type} `{Repository W}.

Lemma task_step_progress t (w : W) :
  awaits_left (fst (task_step t w)) <= pred (awaits_left t).
Proof.
  destruct t as [e|e|r]; cbn [task_step awaits_left pred].
  - destruct (findOneBy e w) as [[[u|]|err] w']; cbn; lia.
  - destruct (save _ w) as [[u|err] w']; cbn; lia.
  - cbn. lia.
Qed.

Lemma resume_length i (sys : list Task * W) :
  length (fst (resume i sys)) = length (fst sys).
Proof.
  unfold resume. destruct (fst sys !! i) as [t|]; [|reflexivity].
  destruct (task_step t (snd sys)) as [t' w']. cbn [fst].
  apply length_insert.
Qed.

Lemma resume_lookup_other i j (sys : list Task * W) :
  i <> j -> fst (resume i sys) !! j = fst sys !! j.
Proof.
  intros Hne. unfold resume. destruct (fst sys !! i) as [t|]; [|reflexivity].
  destruct (task_step t (snd sys)) as [t' w']. cbn [fst].
  now apply list_lookup_insert_ne.
Qed.

Lemma resume_lookup_same i (sys : list Task * W) t :
  fst sys !! i = Some t ->
  fst (resume i sys) !! i = Some (fst (task_step t (snd sys))).
Proof.
  intros Ht. unfold resume. rewrite Ht.
  destruct (task_step t (snd sys)) as [t' w']. cbn [fst].
  apply list_lookup_insert_eq. now apply lookup_lt_Some in Ht.
Qed.

Lemma resume_progress i j (sys : list Task * W) :
  awaits_left_at (fst (resume i sys)) j <=
  awaits_left_at (fst sys) j - (if decide (i = j) then 1 else 0).
Proof.
  unfold awaits_left_at. destruct (decide (i = j)) as [->|Hne].
  - destruct (fst sys !! j) as [t|] eqn:Ht.
    + rewrite (resume_lookup_same _ _ _ Ht). cbn [from_option].
      pose proof (task_step_progress t (snd sys)). lia.
    + unfold resume. rewrite Ht, Ht. cbn. lia.
  - rewrite (resume_lookup_other _ _ _ Hne). lia.
Qed.

Lemma run_schedule_length sched : forall sys : list Task * W,
  length (fst (run_schedule sched sys)) = length (fst sys).
Proof.
  induction sched as [|i sched IH]; intros sys; [reflexivity|].
  cbn [run_schedule fold_left]. fold (run_schedule sched (resume i sys)).
  now rewrite IH, resume_length.
Qed.

Lemma run_schedule_progress sched : forall (sys : list Task * W) j,
  awaits_left_at (fst (run_schedule sched sys)) j <=
  awaits_left_at (fst sys) j - count_occ Nat.eq_dec sched j.
Proof.
  induction sched as [|i sched IH]; intros sys j.
  - cbn. lia.
  - cbn [run_schedule fold_left]. fold (run_schedule sched (resume i sys)).
    specialize (IH (resume i sys) j).
    pose proof (resume_progress i j sys) as Hstep.
    cbn [count_occ]. destruct (Nat.eq_dec i j) as [->|Hne].
    + rewrite decide_True in Hstep by reflexivity. lia.
    + rewrite decide_False in Hstep by exact Hne. lia.
Qed.

(** Once every call was resumed twice, every call has settled. *)
Lemma run_schedule_settles sched (sys : list Task * W) :
  (forall j, j < length (fst sys) -> 2 <= count_occ Nat.eq_dec sched j) ->
  forallb settled (fst (run_schedule sched sys)) = true.
Proof.
  intros Hfair. apply forallb_forall. intros t Hin.
  apply list_elem_of_In, list_elem_of_lookup in Hin as [j Hj].
  pose proof (run_schedule_progress sched sys j) as Hprog.
  assert (Hlt : j < length (fst sys)).
  { rewrite <- (run_schedule_length sched). now apply lookup_lt_Some in Hj. }
  specialize (Hfair j Hlt).
  assert (Hle : awaits_left_at (fst sys) j <= 2).
  { unfold awaits_left_at. destruct (fst sys !! j) as [[| |]|]; cbn; lia. }
  unfold awaits_left_at at 1 in Hprog. rewrite Hj in Hprog. cbn in Hprog.
  destruct t; cbn in *; [lia | lia | reflexivity].
Qed.

End Scheduling.

(** ** The race on an unseen email *)

Section Accounting.
Context {W : Type} `{Repository W}.
Variable e : string.

Lemma filter_insert_length {A} (P : A -> bool) (l : list A) : forall i x y,
  l !! i = Some x ->
  length (List.filter P (<[i := y]> l)) + (if P x then 1 else 0) =
  length (List.filter P l) + (if P y then 1 else 0).
Proof.
  induction l as [|a l IH]; intros [|i] x y Hi; try discriminate.
  - cbn in Hi. injection Hi as ->. cbn [List.filter].
    change (<[0 := y]> (x :: l)) with (y :: l). cbn [List.filter].
    destruct (P x), (P y); cbn [length]; lia.
  - cbn in Hi. change (<[S i := y]> (a :: l)) with (a :: <[i := y]> l).
    cbn [List.filter]. specialize (IH i x y Hi).
    destruct (P a); cbn [length]; lia.
Qed.

Lemma filter_snoc_length {A} (P : A -> bool) (l : list A) (x : A) :
  length (List.filter P (l ++ [x])) =
  length (List.filter P l) + (if P x then 1 else 0).
Proof.
  rewrite List.filter_app, length_app. cbn [List.filter].
  destruct (P x); reflexivity.
Qed.

Lemma omap_insert_unsettled {A B} (f : A -> option B) (l : list A) : forall i x y,
  l !! i = Some x ->
  f x = None ->
  Permutation (omap f (<[i := y]> l)) (from_option (fun b => [b]) [] (f y) ++ omap f l).
Proof.
  induction l as [|a l IH]; intros [|i] x y Hi Hx; try discriminate.
  - cbn in Hi. injection Hi as ->.
    change (<[0 := y]> (x :: l)) with (y :: l). cbn [omap list_omap].
    rewrite Hx. now destruct (f y).
  - cbn in Hi. change (<[S i := y]> (a :: l)) with (a :: <[i := y]> l).
    cbn [omap list_omap]. specialize (IH i x y Hi Hx).
    destruct (f a) as [b|]; [|exact IH].
    rewrite IH. destruct (f y); cbn [from_option app]; [apply perm_swap | reflexivity].
Qed.

Lemma answered_by_later log q r :
  answered_by e log r -> answered_by e (log ++ [q]) r.
Proof.
  intros [Hs | [(u & -> & Hu) | (err & -> & Herr)]].
  - left. apply in_or_app. now left.
  - right. left. exists u. split; [reflexivity|]. apply in_or_app. now left.
  - right. right. exists err. split; [reflexivity|]. apply in_or_app. now left.
Qed.

Lemma accounted_start (w : W) n :
  accounted e (replicate n (AwaitFindOneBy e), {| inner := w; queries := [] |}).
Proof.
  assert (Hnone : forall P : Task -> bool, P (AwaitFindOneBy e) = false ->
            List.filter P (replicate n (AwaitFindOneBy e)) = []).
  { intros P HP. induction n as [|k IH]; [reflexivity|].
    cbn [replicate List.filter]. now rewrite HP. }
  unfold accounted. cbn [fst snd queries List.filter length].
  rewrite !Hnone by reflexivity. repeat split.
  - clear Hnone. induction n as [|k IH]; [reflexivity | exact IH].
  - apply Forall_replicate. now left.
  - intros r [].
Qed.

Lemma accounted_step i ts (log : list Query) (w w' : W) task task' q :
  ts !! i = Some task ->
  accounted e (ts, {| inner := w; queries := log |}) ->
  (if is_FindOneBy q then 1 else 0) + (if past_findOneBy task then 1 else 0) =
    (if past_findOneBy task' then 1 else 0) ->
  (if is_Save q then 1 else 0) + (if awaiting_save task' then 1 else 0) +
    (if awaiting_save task then 0 else 1) =
    (if found_nothing q then 1 else 0) + 1 ->
  settled task = false ->
  settled_with task' = final_answer q ->
  (task' = AwaitFindOneBy e \/ task' = AwaitSave e \/
   exists r, task' = Settled r /\ answered_by e (log ++ [q]) r) ->
  (forall r, q = Save {| draft_email := e |} r -> task' = Settled r) ->
  accounted e (<[i := task']> ts, {| inner := w'; queries := log ++ [q] |}).
Proof.
  intros Hi (Hreads & Hsaves & Hperm & Hts & Hback) Hr Hs Hflight Hfinal Hnew Hsaved.
  cbn [fst snd queries] in *. unfold accounted. cbn [fst snd queries].
  rewrite !filter_snoc_length.
  pose proof (filter_insert_length past_findOneBy ts i task task' Hi) as Hp.
  pose proof (filter_insert_length awaiting_save ts i task task' Hi) as Ha.
  split; [lia|]. split.
  { destruct (awaiting_save task); lia. }
  split.
  { rewrite (omap_insert_unsettled settled_with ts i task task' Hi)
      by (destruct task; [reflexivity | reflexivity | discriminate Hflight]).
    rewrite omap_app, Hfinal, Hperm.
    assert (Hq : omap final_answer [q] =
                 from_option (fun r => [r]) [] (final_answer q))
      by (cbn [omap list_omap]; now destruct (final_answer q)).
    rewrite Hq. apply Permutation_app_comm. }
  split.
  - apply Forall_insert; [|exact Hnew].
    eapply Forall_impl; [exact Hts|].
    intros t0 [Ht0 | [Ht0 | (r & Ht0 & Hr0)]];
      [now left | right; now left |].
    right. right. exists r. split; [exact Ht0 | now apply answered_by_later].
  - intros r Hin. apply in_app_or in Hin as [Hin|[Hin|[]]].
    + destruct (Hback r Hin) as [k Hk]. exists k.
      rewrite list_lookup_insert_ne; [exact Hk|].
      intros ->. rewrite Hi in Hk. injection Hk as ->. discriminate Hflight.
    + exists i. rewrite (Hsaved r) by exact Hin.
      apply list_lookup_insert_eq. now apply lookup_lt_Some in Hi.
Qed.

Lemma resume_accounted i (sys : list Task * Traced W) :
  accounted e sys -> accounted e (resume i sys).
Proof.
  destruct sys as [ts [w log]]. unfold resume. cbn [fst snd].
  destruct (ts !! i) as [task|] eqn:Hi; [|trivial].
  intros Hinv. pose proof Hinv as (_ & _ & _ & Hts & _). cbn [fst snd] in Hts.
  pose proof (Forall_lookup_1 _ _ _ _ Hts Hi) as [-> | [-> | (r & -> & Hr)]];
    cbn [task_step].
  - (* the answer to the lookup arrives *)
    cbn [findOneBy Traced_Repository]. unfold traced. cbn [inner queries].
    destruct (findOneBy e w) as [[[u|]|err] w'].
    + apply (accounted_step i ts log w w' _ _ _ Hi Hinv); try reflexivity.
      * right. right. eexists. split; [reflexivity|]. right. left.
        exists u. split; [reflexivity|]. apply in_or_app. right. now left.
      * intros r Hq. discriminate Hq.
    + apply (accounted_step i ts log w w' _ _ _ Hi Hinv); try reflexivity.
      * right. now left.
      * intros r Hq. discriminate Hq.
    + apply (accounted_step i ts log w w' _ _ _ Hi Hinv); try reflexivity.
      * right. right. eexists. split; [reflexivity|]. right. right.
        exists err. split; [reflexivity|]. apply in_or_app. right. now left.
      * intros r Hq. discriminate Hq.
  - (* the answer to the save arrives *)
    cbn [save Traced_Repository]. unfold traced. cbn [inner queries].
    destruct (save {| draft_email := e |} w) as [[u|err] w'].
    + apply (accounted_step i ts log w w' _ _ _ Hi Hinv); try reflexivity.
      * right. right. eexists. split; [reflexivity|]. left.
        apply in_or_app. right. now left.
      * intros r Hq. now injection Hq as <-.
    + apply (accounted_step i ts log w w' _ _ _ Hi Hinv); try reflexivity.
      * right. right. eexists. split; [reflexivity|]. left.
        apply in_or_app. right. now left.
      * intros r Hq. now injection Hq as <-.
  - (* a call that has settled stays as it is *)
    rewrite list_insert_id by exact Hi. exact Hinv.
Qed.

Lemma run_schedule_accounted sched : forall sys : list Task * Traced W,
  accounted e sys -> accounted e (run_schedule sched sys).
Proof.
  induction sched as [|i sched IH]; intros sys Hinv; [exact Hinv|].
  cbn [run_schedule fold_left]. fold (run_schedule sched (resume i sys)).
  now apply IH, resume_accounted.
Qed.

End Accounting.





(** * Further properties of the middleware *)

Section MiddlewareOutcomes.
Context {W : Type} `{Repository W}.
Variable wl : list string.

(** X1. Whatever the repository does, the middleware itself never throws:
    every run ends in [next()] or in one of three answers -- 401 with the
    invalid-path message, 401 with the missing-header message, or 500 with
    the authentication-error message. *)
Theorem middleware_never_throws (req : Request) (env : Env W) :
  exists req' o,
    fst (middleware wl req env) = Return (req', o) /\
    (o = Next \/
     o = Json 401 "Unauthorized Access - Invalid Path Structure" \/
     o = Json 401 "Unauthorized: X-Forwarded-Email header is required" \/
     o = Json 500 "Internal Server Error during authentication").
Proof.
  destruct (RegExp.test URL_CASE_INSENSITIVE_REGEX (path req)) eqn:Hci;
    [|rewrite middleware_not_in_scope by exact Hci; eauto 6].
  destruct (RegExp.test URL_CASE_SENSITIVE_REGEX (path req)) eqn:Hcs;
    [|rewrite middleware_case_mismatch by assumption; eauto 6].
  destruct (isWhitelisted wl req) eqn:Hwl;
    [rewrite middleware_whitelisted by assumption; eauto 6|].
  destruct (truthy (headers req !! "x-forwarded-email")) as [e|] eqn:Hhdr;
    [|rewrite middleware_no_header by assumption; eauto 7].
  rewrite (middleware_protected wl req env e Hcs Hwl Hhdr).
  destruct (findOrCreateUserByEmail e (storage env)) as [[u|err] w'];
    cbn [fst]; eauto 8.
Qed.

(** X2. The middleware rewrites nothing of the request but [req.user]: the
    path and the headers leave as they came, and the calls recorded before
    the run are kept, in order, in front of the new ones. *)
Theorem middleware_keeps_path_and_headers (req : Request) (env : Env W) :
  exists req' o env',
    middleware wl req env = (Return (req', o), env') /\
    path req' = path req /\
    headers req' = headers req /\
    exists new, calls env' = calls env ++ new.
Proof.
  destruct (RegExp.test URL_CASE_INSENSITIVE_REGEX (path req)) eqn:Hci.
  2:{ rewrite middleware_not_in_scope by exact Hci.
      eexists _, _, _. repeat split. exists []. now rewrite app_nil_r. }
  destruct (RegExp.test URL_CASE_SENSITIVE_REGEX (path req)) eqn:Hcs.
  2:{ rewrite middleware_case_mismatch by assumption.
      eexists _, _, _. repeat split. exists []. now rewrite app_nil_r. }
  destruct (isWhitelisted wl req) eqn:Hwl.
  { rewrite middleware_whitelisted by assumption.
    eexists _, _, _. repeat split. exists []. now rewrite app_nil_r. }
  destruct (truthy (headers req !! "x-forwarded-email")) as [e|] eqn:Hhdr.
  2:{ rewrite middleware_no_header by assumption.
      eexists _, _, _. repeat split. exists []. now rewrite app_nil_r. }
  rewrite (middleware_protected wl req env e Hcs Hwl Hhdr).
  destruct (findOrCreateUserByEmail e (storage env)) as [[u|err] w'].
  - eexists _, _, _. repeat split. cbn [calls]. now eexists.
  - eexists _, _, _. repeat split. cbn [calls]. rewrite <- app_assoc. now eexists.
Qed.

End MiddlewareOutcomes.

Section WhitelistGrowth.
Context {W : Type} `{Repository W}.

Lemma isWhitelisted_incl wl wl' req :
  incl wl wl' -> isWhitelisted wl req = true -> isWhitelisted wl' req = true.
Proof.
  intros Hincl (url & Hin & Hpre)%isWhitelisted_prefix.
  apply isWhitelisted_prefix. exists url. split; [now apply Hincl | exact Hpre].
Qed.

(** X3. Adding entries to [WHITELIST_URLS] changes a run in one way only: it
    may turn it into the anonymous pass.  So a request that was handed on
    before is still handed on after, and no request is newly denied. *)
Theorem whitelist_growth_only_opens
    (wl wl' : list string) (req : Request) (env : Env W) :
  incl wl wl' ->
  (middleware wl' req env = middleware wl req env \/
   middleware wl' req env = (Return (req, Next), env)) /\
  ((exists req1 env1, middleware wl req env = (Return (req1, Next), env1)) ->
   exists req2 env2, middleware wl' req env = (Return (req2, Next), env2)).
Proof.
  intros Hincl.
  assert (Hcases : middleware wl' req env = middleware wl req env \/
                   middleware wl' req env = (Return (req, Next), env)).
  { destruct (RegExp.test URL_CASE_INSENSITIVE_REGEX (path req)) eqn:Hci;
      [|left; now rewrite !middleware_not_in_scope].
    destruct (RegExp.test URL_CASE_SENSITIVE_REGEX (path req)) eqn:Hcs;
      [|left; now rewrite !middleware_case_mismatch].
    destruct (isWhitelisted wl' req) eqn:Hwl';
      [right; now apply middleware_whitelisted|].
    assert (Hwl : isWhitelisted wl req = false).
    { destruct (isWhitelisted wl req) eqn:Hwl; [|reflexivity].
      apply (isWhitelisted_incl _ _ _ Hincl) in Hwl. congruence. }
    left.
    destruct (truthy (headers req !! "x-forwarded-email")) as [e|] eqn:Hhdr.
    - now rewrite !(middleware_protected _ req env e Hcs) by assumption.
    - now rewrite !middleware_no_header. }
  split; [exact Hcases|].
  intros (req1 & env1 & Hrun).
  destruct Hcases as [Hsame | Hpass]; [rewrite Hsame | rewrite Hpass]; eauto.
Qed.

End WhitelistGrowth.

Lemma whitelist_growth_witness :
  exists req2 env2,
    middleware ("/api/v1/chatflows" :: example_whitelist)
      (request "/api/v1/marketplaces/chatflows" []) (fresh_env empty_db) =
      (Return (req2, Next), env2).
Proof.
  apply (whitelist_growth_only_opens example_whitelist
           ("/api/v1/chatflows" :: example_whitelist)
           (request "/api/v1/marketplaces/chatflows" []) (fresh_env empty_db)).
  - intros url Hin. right. exact Hin.
  - eexists _, _. reflexivity.
Defined.

(** * Further properties of the identity store *)

Section TableService.

Lemma find_none_absent e l :
  List.find (has_email e) l = None -> ~ In e (map email l).
Proof.
  intros Hfind (u & Hu & Hin)%in_map_iff.
  apply (find_none _ _ Hfind) in Hin. unfold has_email in Hin.
  rewrite Hu, String.eqb_refl in Hin. discriminate.
Qed.

Lemma find_other_email e e' l u :
  email u = e -> e' <> e ->
  List.find (has_email e') (l ++ [u]) = List.find (has_email e') l.
Proof.
  intros Hu Hne. induction l as [|v l IH]; cbn [app List.find].
  - unfold has_email. rewrite Hu.
    destruct (String.eqb_spec e e'); [congruence | reflexivity].
  - destruct (has_email e' v); [reflexivity | exact IH].
Qed.

Lemma findOrCreateUserByEmail_on_table (db : Db) (e : string) :
  exists u db',
    findOrCreateUserByEmail e db = (Return u, db') /\
    email u = e /\
    List.find (has_email e) (rows db') = Some u /\
    (exists l, rows db' = rows db ++ l /\ length l <= 1) /\
    (forall e', e' <> e ->
       List.find (has_email e') (rows db') = List.find (has_email e') (rows db)) /\
    (unique_emails db -> unique_emails db').
Proof.
  destruct (List.find (has_email e) (rows db)) as [u|] eqn:Hfind.
  - exists u, db. rewrite (service_hit _ _ _ Hfind).
    split; [reflexivity|]. split; [eapply find_has_email, Hfind|].
    split; [exact Hfind|]. split; [|split; [reflexivity | exact (fun Hu => Hu)]].
    exists []. rewrite app_nil_r. split; [reflexivity | cbn; lia].
  - pose proof (find_none_absent _ _ Hfind) as Hnot.
    exists (inserted_row e db), (after_insert e db).
    rewrite (service_miss _ _ Hfind). cbn [rows after_insert].
    split; [reflexivity|]. split; [reflexivity|].
    split; [apply find_present; [exact Hnot | reflexivity]|]. split; [|split].
    + exists [inserted_row e db]. split; [reflexivity | cbn; lia].
    + intros e' Hne. now apply (find_other_email e).
    + intros Huniq. unfold unique_emails. cbn [rows after_insert].
      now apply unique_emails_inserted.
Qed.

(** X4. On the table, one call after another, [findOrCreateUserByEmail]
    never throws, from any table: it returns a row that carries the email and
    that a later lookup of the email finds; the rows that were there stay, in
    place and unchanged, with at most one row appended; lookups of any other
    email answer as before; and a table with unique emails keeps them
    unique. *)
Theorem findOrCreateUserByEmail_sequential (db : Db) (e : string) :
  exists u db',
    findOrCreateUserByEmail e db = (Return u, db') /\
    email u = e /\
    List.find (has_email e) (rows db') = Some u /\
    (exists l, rows db' = rows db ++ l /\ length l <= 1) /\
    (forall e', e' <> e ->
       List.find (has_email e') (rows db') = List.find (has_email e') (rows db)) /\
    (unique_emails db -> unique_emails db').
Proof. exact (findOrCreateUserByEmail_on_table db e). Qed.

End TableService.

(** * The middleware over the table *)

Section MiddlewareOnTable.
Variable wl : list string.

(** X6. With the table as storage and requests served one after another, the
    middleware never answers 500: a run either hands the request on, or
    answers 401 and leaves the request, the table and the recorded calls as
    they were. *)
Theorem middleware_on_table_never_500 (req : Request) (env : Env Db) :
  (exists req' env', middleware wl req env = (Return (req', Next), env')) \/
  (exists msg, middleware wl req env = (Return (req, Json 401 msg), env)).
Proof.
  destruct (RegExp.test URL_CASE_INSENSITIVE_REGEX (path req)) eqn:Hci;
    [|left; rewrite middleware_not_in_scope by exact Hci; eauto].
  destruct (RegExp.test URL_CASE_SENSITIVE_REGEX (path req)) eqn:Hcs;
    [|right; rewrite middleware_case_mismatch by assumption; eauto].
  destruct (isWhitelisted wl req) eqn:Hwl;
    [left; rewrite middleware_whitelisted by assumption; eauto|].
  destruct (truthy (headers req !! "x-forwarded-email")) as [e|] eqn:Hhdr;
    [|right; rewrite middleware_no_header by assumption; eauto].
  left. rewrite (middleware_protected wl req env e Hcs Hwl Hhdr).
  destruct (findOrCreateUserByEmail_on_table (storage env) e)
    as (u & db' & Hrun & _).
  rewrite Hrun. eauto.
Qed.


End MiddlewareOnTable.


(** * What the two patterns accept *)

Section PatternLanguage.
Import RegExp.

(** X8. The case-sensitive pattern accepts exactly the paths that contain
    the text [/api/v1/]: in scope means containment, nothing more and nothing
    less. *)
Theorem case_sensitive_test_is_containment (p : string) :
  test URL_CASE_SENSITIVE_REGEX p = true <->
  exists pre post, p = pre +:+ "/api/v1/" +:+ post.
Proof.
  split.
  - apply search_exact_inv.
  - intros (pre & post & ->). apply search_contains.
Qed.

(** X9. The case-insensitive pattern accepts a path exactly when the
    case-sensitive one accepts its lower-cased form.  The paths answered with
    the invalid-path 401 are therefore those that contain [/api/v1/] only
    after lower-casing. *)
Theorem case_insensitive_test_is_lowercased (p : string) :
  test URL_CASE_INSENSITIVE_REGEX p = test URL_CASE_SENSITIVE_REGEX (lowercase p).
Proof. apply search_lower. reflexivity. Qed.

End PatternLanguage.

(** * Start-up and shutdown *)

Section LifecycleFacts.
Import Lifecycle.
Variable behaviour : Op -> Behaviour.
Variable settle_time : Op -> nat.
Variable process_env : gmap string string.
Variable MODE_QUEUE : string.
Variable isCloud : bool.
Variable getName : MetricsProvider -> string.

Lemma lbind_ext {S A B} (m : LM S A) (k k' : A -> LM S B) s :
  (forall a s', k a s' = k' a s') -> lbind m k s = lbind m k' s.
Proof. intros Hk. unfold lbind. destruct (m s) as [[a|t] s']; auto. Qed.

Lemma lbind_assoc {S A B C} (m : LM S A) (f : A -> LM S B) (g : B -> LM S C) s :
  lbind (lbind m f) g s = lbind m (fun a => lbind (f a) g) s.
Proof. unfold lbind. destruct (m s) as [[a|t] s']; reflexivity. Qed.

Lemma run_steps_app l1 l2 p :
  run_steps behaviour (l1 ++ l2) p =
  lbind (run_steps behaviour l1) (fun _ => run_steps behaviour l2) p.
Proof.
  revert p. induction l1 as [|s l1 IH]; intros p; [reflexivity|].
  cbn [app run_steps]. rewrite lbind_assoc. apply lbind_ext. intros _ p'. apply IH.
Qed.

(** A script runs its steps in order and stops at the first that fails. *)
Lemma run_steps_spec l : forall p,
  run_steps behaviour l p =
    (match first_failure behaviour l with
     | Some e => Raise (Raised e)
     | None => Ok tt
     end,
     {| this := fold_left step_assigns (entered behaviour l) (this p);
        log := log p ++ flat_map step_events (entered behaviour l) |}).
Proof.
  induction l as [|s l IH]; intros [a lg].
  - cbn. now rewrite app_nil_r.
  - cbn [run_steps first_failure entered].
    destruct s as [op|op|f|msg]; cbn [run_step step_failure];
      unfold await_call, call, set_field, emit, lbind; cbn [this log].
    + destruct (behaviour op); [rewrite IH|..]; cbn;
        now rewrite <- ?app_assoc.
    + destruct (behaviour op); [rewrite IH| |rewrite IH]; cbn;
        now rewrite <- ?app_assoc.
    + rewrite IH. reflexivity.
    + rewrite IH. cbn. now rewrite <- app_assoc.
Qed.

Lemma entered_prefix l : exists rest, l = entered behaviour l ++ rest.
Proof.
  induction l as [|s l [rest IH]]; [now exists []|]. cbn [entered].
  destruct (step_failure behaviour s).
  - now exists l.
  - exists rest. cbn. now rewrite <- IH.
Qed.

Lemma entered_all l :
  first_failure behaviour l = None -> entered behaviour l = l.
Proof.
  induction l as [|s l IH]; [reflexivity|]. cbn [first_failure entered].
  destruct (step_failure behaviour s); [discriminate|].
  intros Hnone. now rewrite IH.
Qed.

Lemma initDatabase_script p :
  initDatabase behaviour process_env MODE_QUEUE p =
    ltry (run_steps behaviour (init_steps (queue_mode process_env MODE_QUEUE)))
      (fun error =>
         emit (LoggerError
                 "❌ [server]: Error during Data Source initialization:" error))
      p.
Proof.
  unfold initDatabase, ltry.
  match goal with
  | |- match ?m p with _ => _ end = match ?m' p with _ => _ end =>
      enough (Heq : m p = m' p) by now rewrite Heq
  end.
  unfold init_steps. rewrite run_steps_app. cbn [run_steps run_step].
  repeat (rewrite lbind_assoc; apply lbind_ext; intros _ ?).
  change (lbind (lret tt) ?k ?s) with (k tt s). cbv beta.
  destruct (queue_mode process_env MODE_QUEUE).
  - rewrite run_steps_app. unfold queue_steps. cbn [run_steps run_step].
    repeat (etransitivity; [apply lbind_assoc|]; symmetry;
            etransitivity; [apply lbind_assoc|]; symmetry;
            apply lbind_ext; intros _ ?).
    symmetry. etransitivity; [apply lbind_assoc|].
    apply lbind_ext. intros [] ?. reflexivity.
  - reflexivity.
Qed.

Lemma initDatabase_run (p : Proc) :
  initDatabase behaviour process_env MODE_QUEUE p =
    (Ok tt,
     {| this := fold_left step_assigns
                  (entered behaviour (init_steps (queue_mode process_env MODE_QUEUE)))
                  (this p);
        log := log p ++
               flat_map step_events
                 (entered behaviour (init_steps (queue_mode process_env MODE_QUEUE))) ++
               match first_failure behaviour
                       (init_steps (queue_mode process_env MODE_QUEUE)) with
               | Some e =>
                   [LoggerError
                      "❌ [server]: Error during Data Source initialization:"
                      (Raised e)]
               | None => []
               end |}).
Proof.
  rewrite initDatabase_script. unfold ltry. rewrite run_steps_spec.
  destruct (first_failure behaviour _); unfold emit; cbn [this log].
  - now rewrite <- app_assoc.
  - now rewrite app_nil_r.
Qed.

(** X12. [initDatabase] never throws.  It runs the statements of its [try]
    block in program order up to and including the first call that throws
    or whose awaited promise rejects, assigns the fields whose assignment it
    reached, and then logs that error once; when no call fails it ends with
    the "has been initialized" line.  Nothing after the failing call is
    invoked. *)
Theorem initDatabase_stops_at_first_failure (p : Proc) :
  let steps := init_steps (queue_mode process_env MODE_QUEUE) in
  initDatabase behaviour process_env MODE_QUEUE p =
    (Ok tt,
     {| this := fold_left step_assigns (entered behaviour steps) (this p);
        log := log p ++ flat_map step_events (entered behaviour steps) ++
               match first_failure behaviour steps with
               | Some e =>
                   [LoggerError
                      "❌ [server]: Error during Data Source initialization:"
                      (Raised e)]
               | None => []
               end |}) /\
  (exists rest, steps = entered behaviour steps ++ rest) /\
  (first_failure behaviour steps = None -> entered behaviour steps = steps).
Proof.
  intros steps. split; [|split].
  - apply initDatabase_run.
  - apply entered_prefix.
  - apply entered_all.
Qed.

Lemma entered_firstn l :
  exists j, entered behaviour l = firstn j l.
Proof.
  induction l as [|s l [j IH]]; [now exists 0|]. cbn [entered].
  destruct (step_failure behaviour s).
  - now exists 1.
  - exists (S j). cbn. now rewrite IH.
Qed.

Lemma assigned_in_order_firstn (queue : bool) (j : nat) :
  assigned_in_order
    (fold_left step_assigns (firstn j (init_steps queue)) new_app) = true.
Proof.
  assert (Hall : forallb (fun j => assigned_in_order
                   (fold_left step_assigns (firstn j (init_steps queue)) new_app))
                   (seq 0 40) = true).
  { destruct queue; vm_compute; reflexivity. }
  destruct (Nat.lt_ge_cases j 40) as [Hlt|Hge].
  - rewrite forallb_forall in Hall. apply Hall, in_seq. lia.
  - rewrite firstn_all2 by (destruct queue; cbn; lia).
    rewrite <- (firstn_all2 (n := 39) (init_steps queue))
      by (destruct queue; cbn; lia).
    rewrite forallb_forall in Hall. apply Hall, in_seq. lia.
Qed.

Lemma assigned_in_order_sound (a : App) :
  assigned_in_order a = true ->
  exists k, forall f, is_set f a = true <-> In f (firstn k field_order).
Proof.
  unfold assigned_in_order. intros (k & _ & Hk)%existsb_exists.
  exists k. intros f. unfold assigned_in_order_upto in Hk.
  rewrite forallb_forall in Hk.
  assert (Hf : In f field_order) by (destruct f; cbn; tauto).
  apply Hk, Bool.eqb_prop in Hf. rewrite Hf. split.
  - intros (g & Hin & Hfg)%existsb_exists.
    destruct f, g; try discriminate Hfg; exact Hin.
  - intros Hin. apply existsb_exists. exists f. split; [exact Hin|].
    now destruct f.
Qed.

Lemma initDatabase_assigned (lg : list Event) :
  assigned_in_order
    (this (snd (initDatabase behaviour process_env MODE_QUEUE
                  {| this := new_app; log := lg |}))) = true.
Proof.
  rewrite initDatabase_run. cbn [snd this].
  destruct (entered_firstn (init_steps (queue_mode process_env MODE_QUEUE)))
    as [j ->]. apply assigned_in_order_firstn.
Qed.

(** X13. After [initDatabase] on a new [App], however far it got, the fields
    that are set are an initial stretch of the order in which the function
    assigns them: a field is never set while one assigned before it is still
    [undefined] (with [telemetry] set, [identityManager] is; with
    [redisSubscriber] set, [queueManager] and [telemetry] are). *)
Theorem initDatabase_assigns_in_order (lg : list Event) :
  exists k, forall f,
    is_set f (this (snd (initDatabase behaviour process_env MODE_QUEUE
                           {| this := new_app; log := lg |}))) = true <->
    In f (firstn k field_order).
Proof. apply assigned_in_order_sound, initDatabase_assigned. Qed.

(** X14. [stopApp] never throws and leaves the fields of the [App] alone.
    It calls nothing but [telemetry.flush] and [redisSubscriber.disconnect];
    [flush] is called exactly when [telemetry] is set, and [disconnect]
    exactly when moreover that call did not throw and both [queueManager]
    and [redisSubscriber] are set. *)
Theorem stopApp_never_throws (p : Proc) :
  exists done,
    stopApp behaviour settle_time p =
      (Ok tt, {| this := this p; log := log p ++ done |}) /\
    (In (Invoked Telemetry_flush) done <-> telemetry (this p) = true) /\
    (In (Invoked RedisEventSubscriber_disconnect) done <->
     telemetry (this p) = true /\
     (forall e, behaviour Telemetry_flush <> Throws e) /\
     queueManager (this p) = true /\
     redisSubscriber (this p) = true) /\
    (forall op, In (Invoked op) done ->
       op = Telemetry_flush \/ op = RedisEventSubscriber_disconnect).
Proof.
  destruct p as [a lg].
  unfold stopApp, ltry, lbind, member_call, await_Promise_all, lret, emit.
  cbn [this log is_set].
  destruct (telemetry a) eqn:Ht;
    [destruct (behaviour Telemetry_flush) as [|e1|e1] eqn:Hflush|];
    cbn [this log];
    try (destruct (queueManager a) eqn:Hq; cbn [this log is_set];
         [destruct (redisSubscriber a) eqn:Hr; cbn [this log];
          [destruct (behaviour RedisEventSubscriber_disconnect) as [|e2|e2];
           cbn [this log]|]|]);
    cbn [first_rejection rejection settles_at];
    try destruct (_ <=? _)%nat;
    (eexists; split;
     [cbn [this log]; rewrite <- ?app_assoc; cbn [this log];
      rewrite <- ?app_assoc; reflexivity|]);
    cbn [In app]; repeat split; intros;
    repeat match goal with
           | H : _ /\ _ |- _ => destruct H
           | H : _ \/ _ |- _ => destruct H
           | H : False |- _ => destruct H
           | H : Invoked _ = Invoked _ |- _ => injection H as <-
           | H : forall e, Throws ?x <> Throws e |- _ => destruct (H x eq_refl)
           end;
    try discriminate; try congruence; auto.
Qed.

(** X15. When the queue set-up of [initDatabase] broke off between the
    assignments of [queueManager] and [redisSubscriber], [stopApp] calls
    [telemetry.flush], then fails on [this.redisSubscriber.disconnect] with a
    [TypeError] before it reaches [Promise.all], logs that [TypeError] and
    returns.  The promise of [flush] is never awaited: what [stopApp] logs
    is the [TypeError] whether that promise fulfils or rejects, and a
    rejection of it is not caught by the [catch] of [stopApp]. *)
Theorem stopApp_after_broken_queue_setup (p : Proc) :
  telemetry (this p) = true ->
  queueManager (this p) = true ->
  redisSubscriber (this p) = false ->
  (forall e, behaviour Telemetry_flush <> Throws e) ->
  stopApp behaviour settle_time p =
    (Ok tt,
     {| this := this p;
        log := log p ++
               [Invoked Telemetry_flush;
                LoggerError "❌[server]: Flowise Server shut down error: "
                  (TypeError
                     "Cannot read properties of undefined (reading 'disconnect')")] |}).
Proof.
  destruct p as [a lg]. cbn [this log]. intros Ht Hq Hr Hflush.
  unfold stopApp, ltry, lbind, member_call, await_Promise_all, lret, emit.
  cbn [this log is_set]. rewrite Ht.
  destruct (behaviour Telemetry_flush) as [|e|e] eqn:Hb;
    [|now destruct (Hflush e)|]; cbn [this log]; rewrite Hq; cbn [this log];
    rewrite Hr; cbn [this log]; now rewrite <- app_assoc.
Qed.

Lemma step_events_no_Listen l :
  forallb (fun e => negb (is_Listen e)) (flat_map step_events l) = true.
Proof.
  induction l as [|s l IH]; [reflexivity|]. cbn [flat_map].
  rewrite forallb_app, IH. now destruct s.
Qed.

(** *** [config] *)

Lemma config_like_ret {A} (a : A) : config_like (lret a).
Proof.
  intros p. split; [|reflexivity]. exists []. now rewrite app_nil_r.
Qed.

Lemma config_like_bind {A B} (m : LM Proc A) (k : A -> LM Proc B) :
  config_like m -> (forall a, config_like (k a)) -> config_like (lbind m k).
Proof.
  intros Hm Hk p. unfold lbind.
  destruct (Hm p) as [(new1 & Hlog1 & Hnew1) Hset1].
  destruct (m p) as [[a|t] p1]; cbn [snd] in *.
  - destruct (Hk a p1) as [(new2 & Hlog2 & Hnew2) Hset2]. split.
    + exists (new1 ++ new2). rewrite Hlog2, Hlog1, app_assoc. split; [reflexivity|].
      now rewrite forallb_app, Hnew1, Hnew2.
    + intros f. now rewrite Hset2, Hset1.
  - split; [now exists new1 | exact Hset1].
Qed.

Lemma config_like_emit e : config_event e = true -> config_like (emit e).
Proof.
  intros He p. split; [|reflexivity]. exists [e]. cbn. now rewrite He.
Qed.

Lemma config_like_call op : in_config op = true -> config_like (call behaviour op).
Proof.
  intros Hop p. unfold call, lbind, emit.
  destruct (behaviour op); cbn [snd this log];
    (split; [|reflexivity]); exists [Invoked op]; cbn; now rewrite Hop.
Qed.

Lemma config_like_await_call op :
  in_config op = true -> config_like (await_call behaviour op).
Proof.
  intros Hop p. unfold await_call, lbind, emit.
  destruct (behaviour op); cbn [snd this log];
    (split; [|reflexivity]); exists [Invoked op]; cbn; now rewrite Hop.
Qed.

Lemma config_like_call_member f method op :
  in_config op = true -> config_like (call_member behaviour f method op).
Proof.
  intros Hop p. unfold call_member. destruct (is_set f (this p)).
  - now apply config_like_call.
  - split; [|reflexivity]. exists []. now rewrite app_nil_r.
Qed.

Lemma config_like_await_member f method op :
  in_config op = true -> config_like (await_member behaviour f method op).
Proof.
  intros Hop p. unfold await_member. destruct (is_set f (this p)).
  - now apply config_like_await_call.
  - split; [|reflexivity]. exists []. now rewrite app_nil_r.
Qed.

Lemma config_like_set_metricsProvider provider :
  config_like (set_metricsProvider provider).
Proof.
  intros p. split.
  - exists []. cbn. now rewrite app_nil_r.
  - intros f. now destruct f.
Qed.

Lemma config_like_if {A} (b : bool) (m m' : LM Proc A) :
  config_like m -> config_like m' -> config_like (if b then m else m').
Proof. now destruct b. Qed.

Ltac config_like_steps :=
  repeat first
    [ apply config_like_call; reflexivity
    | apply config_like_await_call; reflexivity
    | apply config_like_call_member; reflexivity
    | apply config_like_await_member; reflexivity
    | apply config_like_emit; reflexivity
    | apply config_like_ret
    | apply config_like_set_metricsProvider
    | apply config_like_if
    | apply config_like_bind; [|intros _] ].

(** [config] calls only its own operations, never [listen], and assigns
    none of the fields of [initDatabase]. *)
Lemma config_config_like :
  config_like (config behaviour process_env MODE_QUEUE isCloud getName).
Proof.
  unfold config. cbv zeta. config_like_steps.
  intros p. destruct (metricsProvider (this p)) as [provider|].
  - assert (Hthen : config_like
      (do* _ := await_call behaviour MetricsProvider_initializeCounters in
       do* _ := call behaviour MetricsProvider_getName in
       emit (LoggerInfo ("📊 [server]: Metrics Provider [" +:+ getName provider +:+
                         "] has been initialized!"))))
      by config_like_steps.
    apply Hthen.
  - now apply config_like_emit.
Qed.

Lemma lbind_raises {S A B} (m : LM S A) (k : A -> LM S B) s t :
  fst (m s) = Raise t -> fst (lbind m k s) = Raise t.
Proof. unfold lbind. destruct (m s) as [[a|t'] s']; cbn; congruence. Qed.

(** With [identityManager] still [undefined], [config] does not get past
    line 284. *)
Lemma config_needs_identityManager (p : Proc) :
  identityManager (this p) = false ->
  exists t, fst (config behaviour process_env MODE_QUEUE isCloud getName p) = Raise t.
Proof.
  unfold config. cbv zeta. revert p.
  assert (Hskip : forall (m : LM Proc unit) (k : unit -> LM Proc unit),
            config_like m ->
            (forall p, identityManager (this p) = false ->
                       exists t, fst (k tt p) = Raise t) ->
            forall p, identityManager (this p) = false ->
                      exists t, fst (lbind m k p) = Raise t).
  { intros m k Hm Hk p Hp. unfold lbind.
    destruct (Hm p) as [_ Hset]. specialize (Hset f_identityManager).
    destruct (m p) as [[[]|t] p1]; cbn [snd fst is_set] in *.
    - apply Hk. congruence.
    - now exists t. }
  do 17 (apply Hskip; [config_like_steps|]).
  intros p Hp. eexists. apply lbind_raises.
  unfold await_member. cbn [is_set]. rewrite Hp. reflexivity.
Qed.

(** *** [config] when each of its calls succeeds *)

Section ConfigCallsSucceed.
Hypothesis calls_succeed : forall op, in_config op = true -> behaviour op = Succeeds.

Lemma completes_ret {A} (a : A) : completes (lret (S := Proc) a).
Proof. intros p. now exists a. Qed.

Lemma completes_bind {A B} (m : LM Proc A) (k : A -> LM Proc B) :
  completes m -> (forall a, completes (k a)) -> completes (lbind m k).
Proof.
  intros Hm Hk p. unfold lbind. destruct (Hm p) as [a Ha].
  destruct (m p) as [[a'|t] p1]; cbn [fst] in Ha; [|discriminate Ha].
  apply Hk.
Qed.

Lemma completes_emit e : completes (emit e).
Proof. intros p. now exists tt. Qed.

Lemma completes_call op : in_config op = true -> completes (call behaviour op).
Proof.
  intros Hop p. exists tt. unfold call, lbind, emit.
  now rewrite (calls_succeed op Hop).
Qed.

Lemma completes_await_call op :
  in_config op = true -> completes (await_call behaviour op).
Proof.
  intros Hop p. exists tt. unfold await_call, lbind, emit.
  now rewrite (calls_succeed op Hop).
Qed.

Lemma completes_set_metricsProvider provider :
  completes (set_metricsProvider provider).
Proof. intros p. now exists tt. Qed.

Lemma completes_if {A} (b : bool) (m m' : LM Proc A) :
  completes m -> completes m' -> completes (if b then m else m').
Proof. now destruct b. Qed.

Ltac completes_steps :=
  repeat first
    [ apply completes_call; reflexivity
    | apply completes_await_call; reflexivity
    | apply completes_emit
    | apply completes_ret
    | apply completes_set_metricsProvider
    | apply completes_if
    | apply completes_bind; [|intros _] ].

(** A step that returns and keeps the fields hands its continuation an
    [App] with the same fields set. *)
Lemma lbind_after {A} (m : LM Proc A) (k : A -> LM Proc unit)
    (F : bool -> bool -> Result unit) :
  config_like m -> completes m ->
  (forall a p, fst (k a p) = F (identityManager (this p)) (queueManager (this p))) ->
  forall p, fst (lbind m k p) = F (identityManager (this p)) (queueManager (this p)).
Proof.
  intros Hl Hc Hk p. unfold lbind.
  destruct (Hl p) as [_ Hset]. destruct (Hc p) as [a Ha].
  pose proof (Hset f_identityManager) as Him.
  pose proof (Hset f_queueManager) as Hqm.
  destruct (m p) as [[a'|t] p1]; cbn [fst snd is_set] in *; [|discriminate Ha].
  now rewrite Hk, Him, Hqm.
Qed.

Lemma lbind_await_member_set f method op (k : unit -> LM Proc unit) p :
  is_set f (this p) = true ->
  lbind (await_member behaviour f method op) k p =
  lbind (await_call behaviour op) k p.
Proof. intros Hf. unfold lbind, await_member. now rewrite Hf. Qed.

Lemma lbind_ok_eq {S A B} (m : LM S A) (k : A -> LM S B) s a s' :
  m s = (Ok a, s') -> lbind m k s = k a s'.
Proof. intros Hm. unfold lbind. now rewrite Hm. Qed.

Lemma call_ok op p :
  in_config op = true ->
  call behaviour op p =
    (Ok tt, {| this := this p; log := log p ++ [Invoked op] |}).
Proof.
  intros Hop. unfold call, lbind, emit. now rewrite (calls_succeed op Hop).
Qed.

Lemma call_member_ok f method op p :
  is_set f (this p) = true ->
  in_config op = true ->
  call_member behaviour f method op p =
    (Ok tt, {| this := this p; log := log p ++ [Invoked op] |}).
Proof.
  intros Hf Hop. unfold call_member. rewrite Hf. now apply call_ok.
Qed.

Lemma config_metrics_block :
  let block : LM Proc unit :=
    fun p =>
      match metricsProvider (this p) with
      | Some provider =>
          (do* _ := await_call behaviour MetricsProvider_initializeCounters in
           do* _ := call behaviour MetricsProvider_getName in
           emit (LoggerInfo
                   ("📊 [server]: Metrics Provider [" +:+ getName provider +:+
                    "] has been initialized!"))) p
      | None =>
          emit (LoggerErrorMessage
                  "❌ [server]: Metrics collection is enabled, but failed to initialize provider (valid values are 'prometheus' or 'open_telemetry'.")
            p
      end in
  config_like block /\ completes block.
Proof.
  split; intros p; cbv beta; destruct (metricsProvider (this p)) as [provider|].
  - assert (Hthen : config_like
      (do* _ := await_call behaviour MetricsProvider_initializeCounters in
       do* _ := call behaviour MetricsProvider_getName in
       emit (LoggerInfo ("📊 [server]: Metrics Provider [" +:+ getName provider +:+
                         "] has been initialized!"))))
      by config_like_steps.
    apply Hthen.
  - now apply config_like_emit.
  - assert (Hthen : completes
      (do* _ := await_call behaviour MetricsProvider_initializeCounters in
       do* _ := call behaviour MetricsProvider_getName in
       emit (LoggerInfo ("📊 [server]: Metrics Provider [" +:+ getName provider +:+
                         "] has been initialized!"))))
      by completes_steps.
    apply Hthen.
  - apply completes_emit.
Qed.

(** With every call succeeding, what [config] ends with is decided by the
    two fields it reads: without [identityManager] it stops at line 284;
    with it, it returns unless it goes on to mount the queue dashboard
    without a [queueManager]. *)
Lemma config_calls_succeed (p : Proc) :
  fst (config behaviour process_env MODE_QUEUE isCloud getName p) =
    if identityManager (this p) then
      if bull_dashboard_enabled process_env MODE_QUEUE && negb isCloud &&
         negb (queueManager (this p))
      then Raise (TypeError
                    "Cannot read properties of undefined (reading 'getBullBoardRouter')")
      else Ok tt
    else Raise (TypeError
                  "Cannot read properties of undefined (reading 'initializeSSO')").
Proof.
  pose (F := fun im qm : bool =>
    if im then
      if bull_dashboard_enabled process_env MODE_QUEUE && negb isCloud && negb qm
      then Raise (A := unit)
             (TypeError
                "Cannot read properties of undefined (reading 'getBullBoardRouter')")
      else Ok tt
    else Raise (TypeError
                  "Cannot read properties of undefined (reading 'initializeSSO')")).
  change (fst (config behaviour process_env MODE_QUEUE isCloud getName p) =
          F (identityManager (this p)) (queueManager (this p))).
  revert p. unfold config. cbv zeta.
  do 17 (apply (lbind_after _ _ F);
         [config_like_steps | completes_steps | intros _]).
  intros p. destruct (identityManager (this p)) eqn:Him.
  2:{ unfold lbind, await_member. cbn [is_set]. now rewrite Him. }
  (* past line 284 *)
  pose (G := fun im qm : bool =>
    if bull_dashboard_enabled process_env MODE_QUEUE then
      if im then
        if negb isCloud then
          if qm then Ok tt
          else Raise (A := unit)
                 (TypeError
                    "Cannot read properties of undefined (reading 'getBullBoardRouter')")
        else Ok tt
      else Raise (TypeError
                    "Cannot read properties of undefined (reading 'isCloud')")
    else Ok tt).
  transitivity (G (identityManager (this p)) (queueManager (this p))).
  2:{ rewrite Him. unfold G, F.
      destruct (bull_dashboard_enabled process_env MODE_QUEUE), isCloud,
        (queueManager (this p)); reflexivity. }
  rewrite lbind_await_member_set by exact Him. clear Him. revert p.
  apply (lbind_after _ _ G); [config_like_steps | completes_steps | intros _].
  apply (lbind_after _ _ G).
  { config_like_steps. apply config_metrics_block. }
  { completes_steps. apply config_metrics_block. }
  intros _.
  do 2 (apply (lbind_after _ _ G);
        [config_like_steps | completes_steps | intros _]).
  (* line 320 *)
  assert (Htail : completes
    (do* _ := call behaviour getNodeModulesPackagePath in
     do* _ := call behaviour path_join_build in
     do* _ := call behaviour path_join_index_html in
     do* _ := call behaviour express_static in
     do* _ := call behaviour app_use_static in
     do* _ := call behaviour app_use_index_html in
     call behaviour app_use_errorHandlerMiddleware)) by completes_steps.
  assert (Hend : forall q,
            fst ((do* _ := call behaviour getNodeModulesPackagePath in
                  do* _ := call behaviour path_join_build in
                  do* _ := call behaviour path_join_index_html in
                  do* _ := call behaviour express_static in
                  do* _ := call behaviour app_use_static in
                  do* _ := call behaviour app_use_index_html in
                  call behaviour app_use_errorHandlerMiddleware) q) = Ok tt).
  { intros q. now destruct (Htail q) as [[] ->]. }
  intros p. unfold G.
  destruct (bull_dashboard_enabled process_env MODE_QUEUE).
  2:{ rewrite (lbind_ok_eq _ _ p tt p eq_refl). apply Hend. }
  destruct (identityManager (this p)) eqn:Him.
  2:{ apply lbind_raises, lbind_raises. unfold call_member. cbn [is_set].
      now rewrite Him. }
  rewrite lbind_assoc.
  rewrite (lbind_ok_eq _ _ _ _ _ (call_member_ok f_identityManager "isCloud"
                IdentityManager_isCloud p Him eq_refl)).
  destruct isCloud; cbn [negb].
  { cbv beta. rewrite (lbind_ok_eq (lret tt) _ _ tt _ eq_refl). apply Hend. }
  cbv beta. destruct (queueManager (this p)) eqn:Hqm.
  2:{ apply lbind_raises, lbind_raises. unfold call_member. cbn [is_set this].
      now rewrite Hqm. }
  rewrite lbind_assoc.
  rewrite (lbind_ok_eq _ _ _ _ _
             (call_member_ok f_queueManager "getBullBoardRouter"
                QueueManager_getBullBoardRouter
                {| this := this p; log := log p ++ [Invoked IdentityManager_isCloud] |}
                Hqm eq_refl)).
  rewrite (lbind_ok_eq _ _ _ _ _ (call_ok app_use_admin_queues _ eq_refl)).
  apply Hend.
Qed.

End ConfigCallsSucceed.

Lemma start_run (w : World) :
  start behaviour process_env MODE_QUEUE isCloud getName w =
    match behaviour new_App with
    | Throws e =>
        (Raise (Raised e),
         {| serverApp := serverApp w; events := events w ++ [Invoked new_App] |})
    | _ =>
        match behaviour http_createServer with
        | Throws e =>
            (Raise (Raised e),
             {| serverApp := Some new_app;
                events := events w ++ [Invoked new_App; Invoked http_createServer] |})
        | _ =>
            let c :=
              config behaviour process_env MODE_QUEUE isCloud getName
                (snd (initDatabase behaviour process_env MODE_QUEUE
                        {| this := new_app;
                           log := events w ++
                                  [Invoked new_App; Invoked http_createServer] |})) in
            match fst c with
            | Ok _ =>
                (match behaviour server_listen with
                 | Throws e => Raise (Raised e)
                 | _ => Ok tt
                 end,
                 {| serverApp := Some (this (snd c));
                    events := log (snd c) ++
                              [Listen (port_of (process_env !! "PORT"))
                                      (process_env !! "HOST")] |})
            | Raise t =>
                (Raise t,
                 {| serverApp := Some (this (snd c)); events := log (snd c) |})
            end
        end
    end.
Proof.
  unfold start, wcall, on_serverApp, wemit, lbind.
  cbn [serverApp events].
  destruct (behaviour new_App) as [|e|e]; [|reflexivity|];
    cbn [serverApp events];
    (destruct (behaviour http_createServer) as [|e'|e'];
     [|now rewrite <- app_assoc|]);
    cbn [serverApp events]; rewrite <- app_assoc; cbn [app];
    rewrite initDatabase_run; cbn [snd this log serverApp events];
    (match goal with
     | |- context [config _ _ _ _ _ ?p] =>
         destruct (config behaviour process_env MODE_QUEUE isCloud getName p)
           as [[[]|t] p2]
     end);
    cbn [fst snd serverApp events];
    try destruct (behaviour server_listen); reflexivity.
Qed.

Lemma config_event_not_Listen new :
  forallb config_event new = true ->
  forallb (fun e => negb (is_Listen e)) new = true.
Proof.
  intros Hnew. apply forallb_forall. intros e He.
  apply (proj1 (forallb_forall _ _) Hnew) in He. now destruct e.
Qed.

(** What [start] hands to [config]: the [App] as [initDatabase] left it,
    which does not depend on what was logged before, and a log without
    [listen]. *)
Lemma initDatabase_in_start (lg : list Event) :
  let p' := snd (initDatabase behaviour process_env MODE_QUEUE
                   {| this := new_app; log := lg |}) in
  this p' = this (snd (initDatabase behaviour process_env MODE_QUEUE
                         {| this := new_app; log := [] |})) /\
  exists ran, log p' = lg ++ ran /\
              forallb (fun e => negb (is_Listen e)) ran = true.
Proof.
  cbv zeta. rewrite !initDatabase_run. cbn [snd this log]. split; [reflexivity|].
  eexists. split; [reflexivity|].
  rewrite forallb_app, step_events_no_Listen.
  now destruct (first_failure behaviour _).
Qed.

(** X16. [start] calls [server.listen] at most once and as the last thing it
    does, with the host of [HOST] and a port that is never [NaN] and never
    zero; when it does not call it, it throws.  The failure that
    [initDatabase] logged and swallowed comes back in [config] if it
    happened before [identityManager] was assigned: [config] then throws (the
    [TypeError] of line 284 if all its calls succeed) and [listen] is never
    called.  With [identityManager] assigned, every call of [config]
    succeeding and, where the queue dashboard is mounted, [queueManager]
    assigned, [start] does call [listen], whatever else failed inside
    [initDatabase]. *)
Theorem start_listens_after_config (w : World) :
  let port := port_of (process_env !! "PORT") in
  let host := process_env !! "HOST" in
  let a := this (snd (initDatabase behaviour process_env MODE_QUEUE
                        {| this := new_app; log := [] |})) in
  let r := start behaviour process_env MODE_QUEUE isCloud getName w in
  let listen_result : Result unit :=
    match behaviour server_listen with
    | Throws e => Raise (Raised e)
    | _ => Ok tt
    end in
  (exists mid,
     events (snd r) = events w ++ mid /\
     ((forallb (fun e => negb (is_Listen e)) mid = true /\
       exists t, fst r = Raise t) \/
      (exists mid', mid = mid' ++ [Listen port host] /\
                    forallb (fun e => negb (is_Listen e)) mid' = true /\
                    fst r = listen_result))) /\
  (identityManager a = false ->
   exists t mid,
     fst r = Raise t /\
     events (snd r) = events w ++ mid /\
     forallb (fun e => negb (is_Listen e)) mid = true) /\
  (identityManager a = false ->
   (forall e, behaviour new_App <> Throws e) ->
   (forall e, behaviour http_createServer <> Throws e) ->
   (forall op, in_config op = true -> behaviour op = Succeeds) ->
   fst r = Raise (TypeError
                    "Cannot read properties of undefined (reading 'initializeSSO')")) /\
  (identityManager a = true ->
   (bull_dashboard_enabled process_env MODE_QUEUE && negb isCloud = true ->
    queueManager a = true) ->
   (forall e, behaviour new_App <> Throws e) ->
   (forall e, behaviour http_createServer <> Throws e) ->
   (forall op, in_config op = true -> behaviour op = Succeeds) ->
   exists mid',
     events (snd r) = events w ++ mid' ++ [Listen port host] /\
     forallb (fun e => negb (is_Listen e)) mid' = true /\
     fst r = listen_result) /\
  port <> NaN /\ port <> Finite 0.
Proof.
  intros port host a r listen_result.
  assert (Hport : port <> NaN /\ port <> Finite 0).
  { unfold port, port_of. destruct (parseInt10 _) as [|[|z|z]|z]; split; discriminate. }
  set (p' := snd (initDatabase behaviour process_env MODE_QUEUE
                    {| this := new_app;
                       log := events w ++
                              [Invoked new_App; Invoked http_createServer] |})).
  destruct (initDatabase_in_start
              (events w ++ [Invoked new_App; Invoked http_createServer]))
    as (Hthis & ran & Hlog & Hran).
  fold p' in Hthis, Hlog. fold a in Hthis.
  destruct (config_config_like p') as [(new & Hnew & Hconf) _].
  apply config_event_not_Listen in Hconf.
  pose proof (config_needs_identityManager p') as Hneed. rewrite Hthis in Hneed.
  pose proof (fun H => config_calls_succeed H p') as Hsucc. rewrite Hthis in Hsucc.
  assert (Hmid : forallb (fun e => negb (is_Listen e))
                   ([Invoked new_App; Invoked http_createServer] ++ ran ++ new) = true).
  { cbn [app forallb is_Listen negb andb]. now rewrite forallb_app, Hran, Hconf. }
  assert (Hr : r =
    match behaviour new_App with
    | Throws e =>
        (Raise (Raised e),
         {| serverApp := serverApp w; events := events w ++ [Invoked new_App] |})
    | _ =>
        match behaviour http_createServer with
        | Throws e =>
            (Raise (Raised e),
             {| serverApp := Some new_app;
                events := events w ++ [Invoked new_App; Invoked http_createServer] |})
        | _ =>
            match fst (config behaviour process_env MODE_QUEUE isCloud getName p') with
            | Ok _ =>
                (listen_result,
                 {| serverApp :=
                      Some (this (snd (config behaviour process_env MODE_QUEUE
                                         isCloud getName p')));
                    events := (events w ++
                               ([Invoked new_App; Invoked http_createServer] ++
                                ran ++ new)) ++ [Listen port host] |})
            | Raise t =>
                (Raise t,
                 {| serverApp :=
                      Some (this (snd (config behaviour process_env MODE_QUEUE
                                         isCloud getName p')));
                    events := events w ++
                              ([Invoked new_App; Invoked http_createServer] ++
                               ran ++ new) |})
            end
        end
    end).
  { unfold r. rewrite start_run. cbv zeta. fold p'. rewrite Hnew, Hlog.
    rewrite <- !app_assoc. reflexivity. }
  clearbody r p'. subst r.
  set (mid := [Invoked new_App; Invoked http_createServer] ++ ran ++ new) in *.
  clearbody mid.
  assert (Hblocked : forall (e : Error) (sa : option App) (lg : list Event),
            forallb (fun e => negb (is_Listen e)) lg = true ->
            let r := (Raise (A := unit) (Raised e),
                      {| serverApp := sa; events := events w ++ lg |}) in
            (exists mid0,
               events (snd r) = events w ++ mid0 /\
               ((forallb (fun e => negb (is_Listen e)) mid0 = true /\
                 exists t, fst r = Raise t) \/
                (exists mid', mid0 = mid' ++ [Listen port host] /\
                              forallb (fun e => negb (is_Listen e)) mid' = true /\
                              fst r = listen_result))) /\
            (identityManager a = false ->
             exists t mid0,
               fst r = Raise t /\
               events (snd r) = events w ++ mid0 /\
               forallb (fun e => negb (is_Listen e)) mid0 = true)).
  { intros e sa lg Hlg. cbn [fst snd events]. split.
    - exists lg. split; [reflexivity|]. left. split; [exact Hlg | now eexists].
    - intros _. now exists (Raised e), lg. }
  destruct (behaviour new_App) as [|e|e] eqn:Hctor;
    [|destruct (Hblocked e (serverApp w) [Invoked new_App] eq_refl) as [H1 H2];
      split; [exact H1|]; split; [exact H2|];
      split; [intros _ Hno; now destruct (Hno e)|];
      split; [intros _ _ Hno; now destruct (Hno e) | exact Hport]|];
    (destruct (behaviour http_createServer) as [|e'|e'] eqn:Hserver;
     [|destruct (Hblocked e' (Some new_app)
                   [Invoked new_App; Invoked http_createServer] eq_refl)
         as [H1 H2];
       split; [exact H1|]; split; [exact H2|];
       split; [intros _ _ Hno; now destruct (Hno e')|];
       split; [intros _ _ _ Hno; now destruct (Hno e') | exact Hport]|]);
    (destruct (fst (config behaviour process_env MODE_QUEUE isCloud getName p'))
       as [[]|t] eqn:Hc; cbn [fst snd events];
     [ (* [config] returned *)
       split; [exists (mid ++ [Listen port host]); split;
               [now rewrite app_assoc|];
               right; exists mid; now repeat split|];
       split; [intros Him; destruct (Hneed Him) as [t Ht]; discriminate Ht|];
       split; [intros Him _ _ Hall; specialize (Hsucc Hall);
               rewrite Him in Hsucc; discriminate Hsucc|];
       split; [|exact Hport];
       intros _ _ _ _ _; exists mid; split; [now rewrite app_assoc|];
       now split
     | (* [config] threw *)
       split; [exists mid; split; [reflexivity|]; left; split;
               [exact Hmid | now exists t]|];
       split; [intros _; now exists t, mid|];
       split; [intros Him _ _ Hall; specialize (Hsucc Hall);
               rewrite Him in Hsucc; congruence|];
       split; [|exact Hport];
       intros Him Hqm _ _ Hall; specialize (Hsucc Hall);
       rewrite Him in Hsucc;
       destruct (bull_dashboard_enabled process_env MODE_QUEUE && negb isCloud);
       [rewrite (Hqm eq_refl) in Hsucc|]; discriminate Hsucc ]).
Qed.

(** X17. [getInstance] after [start]: as soon as the constructor returned,
    the module holds the new [App] -- also when [start] went on to throw --
    with the fields that [initDatabase] reached assigned, in order; only
    when the constructor itself threw is the previous instance, or
    [undefined], still what [getInstance] returns. *)
Theorem getInstance_after_start (w : World) :
  match behaviour new_App with
  | Throws _ =>
      getInstance (snd (start behaviour process_env MODE_QUEUE isCloud getName w)) =
        getInstance w
  | _ =>
      exists a k,
        getInstance (snd (start behaviour process_env MODE_QUEUE isCloud getName w)) =
          Some a /\
        forall f, is_set f a = true <-> In f (firstn k field_order)
  end.
Proof.
  rewrite start_run. unfold getInstance. cbv zeta.
  assert (Hnew : exists k, forall f,
            is_set f new_app = true <-> In f (firstn k field_order)).
  { exists 0. intros f. cbn. split; [now destruct f | tauto]. }
  assert (Hinit : forall lg, exists k, forall f,
            is_set f
              (this (snd (config behaviour process_env MODE_QUEUE isCloud getName
                            (snd (initDatabase behaviour process_env MODE_QUEUE
                                    {| this := new_app; log := lg |}))))) = true <->
            In f (firstn k field_order)).
  { intros lg.
    destruct (assigned_in_order_sound _ (initDatabase_assigned lg)) as [k Hk].
    exists k. intros f.
    destruct (config_config_like
                (snd (initDatabase behaviour process_env MODE_QUEUE
                        {| this := new_app; log := lg |}))) as [_ Hset].
    rewrite Hset. apply Hk. }
  destruct (behaviour new_App) as [|e|e]; [|reflexivity|];
    (destruct (behaviour http_createServer) as [|e'|e'];
     [|destruct Hnew as [k Hk]; exists new_app, k; split; [reflexivity | exact Hk]|]);
    match goal with
    | |- context [initDatabase behaviour process_env MODE_QUEUE ?p] =>
        destruct (Hinit (log p)) as [k Hk]
    end;
    match goal with
    | |- context [fst ?c] => destruct (fst c)
    end; cbn [snd serverApp]; eauto.
Qed.

End LifecycleFacts.



(** * [PORT] *)

Section PortFacts.
Import Lifecycle.

Lemma default_truthy s : default "" (truthy (Some s)) = s.
Proof. now destruct s. Qed.

Lemma trim_start_pad pad s :
  forallb is_StrWhiteSpaceChar (list_ascii_of_string pad) = true ->
  trim_start (pad +:+ s) = trim_start s.
Proof.
  induction pad as [|c pad IH]; [reflexivity|]. cbn [list_ascii_of_string forallb].
  intros [Hc Hpad]%andb_true_iff.
  change (String c pad +:+ s) with (String c (pad +:+ s)).
  cbn [trim_start]. rewrite Hc. now apply IH.
Qed.

Lemma digit_pretty_N_char (x : N) :
  (x < 10)%N -> digit (pretty_N_char x) = Some (Z.of_N x).
Proof.
  intros Hx.
  assert (x = 0 \/ x = 1 \/ x = 2 \/ x = 3 \/ x = 4 \/ x = 5 \/ x = 6 \/
          x = 7 \/ x = 8 \/ x = 9)%N as Hcases by lia.
  repeat destruct Hcases as [->|Hcases]; try subst x; reflexivity.
Qed.

Lemma mathInt_snoc acc D d :
  fold_left (fun a d => 10 * a + d)%Z (D ++ [d]) acc =
  (10 * fold_left (fun a d => 10 * a + d)%Z D acc + d)%Z.
Proof. now rewrite fold_left_app. Qed.

(** The digits [pretty_N_go] writes in front of [s] read back as [x]. *)
Lemma leading_digits_pretty_N_go (x : N) : forall s,
  exists D,
    leading_digits (pretty_N_go x s) = D ++ leading_digits s /\
    (forall acc, fold_left (fun a d => 10 * a + d)%Z D acc =
                 (acc * 10 ^ Z.of_nat (length D) + Z.of_N x)%Z) /\
    ((0 < x)%N -> D <> []).
Proof.
  induction (N.lt_wf_0 x) as [x _ IH]. intros s.
  destruct (N.eq_dec x 0%N) as [->|Hx].
  - exists []. rewrite pretty_N_go_0. split; [reflexivity|]. split; [|lia].
    intros acc. cbn. lia.
  - assert (Hpos : (0 < x)%N) by lia.
    rewrite pretty_N_go_step by exact Hpos.
    destruct (IH (x `div` 10)%N (N.div_lt x 10 Hpos eq_refl)
                (String (pretty_N_char (x `mod` 10)) s)) as (D & HD & Hval & _).
    exists (D ++ [Z.of_N (x `mod` 10)]). split; [|split].
    + rewrite HD. cbn [leading_digits].
      rewrite digit_pretty_N_char by (apply N.mod_lt; lia).
      now rewrite <- app_assoc.
    + intros acc. rewrite mathInt_snoc, Hval, length_app. cbn [length].
      rewrite Nat2Z.inj_add, Z.pow_add_r by lia.
      rewrite (N.div_mod x 10) at 3 by lia.
      rewrite N2Z.inj_add, N2Z.inj_mul. change (Z.of_N 10) with 10%Z.
      change (10 ^ Z.of_nat 1)%Z with 10%Z. lia.
    + intros _ Hnil. now destruct D.
Qed.

Lemma pretty_N_go_append (x : N) : forall s tail,
  pretty_N_go x s +:+ tail = pretty_N_go x (s +:+ tail).
Proof.
  induction (N.lt_wf_0 x) as [x _ IH]. intros s tail.
  destruct (N.eq_dec x 0%N) as [->|Hx]; [rewrite !pretty_N_go_0; reflexivity|].
  assert (Hpos : (0 < x)%N) by lia.
  rewrite (pretty_N_go_step x s), (pretty_N_go_step x (s +:+ tail)) by exact Hpos.
  rewrite (IH _ (N.div_lt x 10 Hpos eq_refl)). reflexivity.
Qed.

Lemma digit_not_space_or_sign c d :
  digit c = Some d ->
  is_StrWhiteSpaceChar c = false /\ c <> "-"%char /\ c <> "+"%char.
Proof.
  destruct c as [[] [] [] [] [] [] [] []]; cbn; intros Hd;
    try discriminate Hd; repeat split; discriminate.
Qed.

(** A string that starts with a digit is read without sign handling. *)
Lemma parseInt10_digits c s d :
  digit c = Some d ->
  parseInt10 (String c s) = to_Number (mathInt (leading_digits (String c s))).
Proof.
  intros Hd. destruct (digit_not_space_or_sign _ _ Hd) as (Hws & Hminus & Hplus).
  unfold parseInt10. cbn [trim_start]. rewrite Hws.
  assert (Hsign : match String c s with
                  | String "-" rest => ((-1)%Z, rest)
                  | String "+" rest => (1%Z, rest)
                  | _ => (1%Z, String c s)
                  end = (1%Z, String c s)).
  { destruct c as [[] [] [] [] [] [] [] []]; try reflexivity; congruence. }
  rewrite Hsign. cbn [leading_digits]. rewrite Hd.
  now rewrite Z.mul_1_l.
Qed.

Lemma parseInt10_minus_digits c s d :
  digit c = Some d ->
  parseInt10 (String "-" (String c s)) =
    to_Number (- mathInt (leading_digits (String c s))).
Proof.
  intros Hd. unfold parseInt10.
  change (trim_start (String "-" (String c s))) with (String "-" (String c s)).
  cbv iota beta. cbn [leading_digits]. rewrite Hd. f_equal; lia.
Qed.

Lemma parseInt10_pretty_N (n : N) (tail : string) :
  (0 < n)%N -> leading_digits tail = [] ->
  parseInt10 (pretty_N_go n "" +:+ tail) = to_Number (Z.of_N n) /\
  parseInt10 (String "-" (pretty_N_go n "" +:+ tail)) = to_Number (- Z.of_N n).
Proof.
  intros Hn Htail. rewrite pretty_N_go_append.
  change ("" +:+ tail) with tail.
  destruct (leading_digits_pretty_N_go n tail) as (D & HD & Hval & Hne).
  rewrite Htail, app_nil_r in HD. specialize (Hne Hn).
  assert (Hmath : mathInt (leading_digits (pretty_N_go n tail)) = Z.of_N n).
  { unfold mathInt. rewrite HD, Hval. lia. }
  destruct (pretty_N_go n tail) as [|c s] eqn:Hstr;
    [cbn in HD; now destruct D|].
  assert (Hc : exists d, digit c = Some d).
  { cbn [leading_digits] in HD. destruct (digit c) as [d|]; [now exists d|].
    now destruct D. }
  destruct Hc as [d Hd]. split.
  - now rewrite (parseInt10_digits _ _ _ Hd), Hmath.
  - now rewrite (parseInt10_minus_digits _ _ _ Hd), Hmath.
Qed.

(** X18. [PORT] round-trips through [parseInt]: when [PORT] is the decimal
    rendering of a non-zero integer that a double holds exactly, possibly
    after white space and possibly followed by text that does not start
    with a digit, the port handed to [listen] is that integer -- negative
    ones included. *)
Theorem port_of_reads_decimal (z : Z) (pad tail : string) :
  z <> 0%Z ->
  (Z.abs z <= 2 ^ 53)%Z ->
  forallb is_StrWhiteSpaceChar (list_ascii_of_string pad) = true ->
  leading_digits tail = [] ->
  port_of (Some (pad +:+ pretty z +:+ tail)) = Finite z.
Proof.
  intros Hz Hbound Hpad Htail. unfold port_of. rewrite default_truthy.
  assert (Hparse : parseInt10 (pad +:+ pretty z +:+ tail) = to_Number z).
  { unfold parseInt10. rewrite trim_start_pad by exact Hpad.
    fold (parseInt10 (pretty z +:+ tail)).
    destruct z as [|q|q]; [congruence| |].
    - change (pretty (Z.pos q)) with (pretty_N_go (N.pos q) "").
      now apply parseInt10_pretty_N.
    - change (pretty (Z.neg q) +:+ tail)
        with (String "-" (pretty_N_go (N.pos q) "" +:+ tail)).
      now apply (parseInt10_pretty_N (N.pos q)). }
  rewrite Hparse. unfold to_Number.
  destruct (Z.abs z <=? 2 ^ 53)%Z eqn:Hle; [|lia].
  destruct z; [congruence | reflexivity | reflexivity].
Qed.

End PortFacts.

Lemma port_of_reads_decimal_witness :
  Lifecycle.port_of (Some " 8080abc") = Lifecycle.Finite 8080.
Proof.
  apply (port_of_reads_decimal 8080 " " "abc");
    [discriminate | vm_compute; discriminate | reflexivity | reflexivity].
Defined.

(** * The decision table of the middleware *)

Section DecisionTable.
Context {W : Type} `{Repository W}.
Variable wl : list string.

Lemma answers_iff (req : Request) (env : Env W) r o0 env' :
  middleware wl req env = (Return (r, o0), env') ->
  forall o, answers wl req env o <-> o = o0.
Proof.
  intros Hrun o. unfold answers. rewrite Hrun. split.
  - intros (req' & env'' & [= _ -> _]). reflexivity.
  - intros ->. eauto.
Qed.

Ltac break_hyps :=
  repeat match goal with
         | Hx : exists _, _ |- _ => destruct Hx
         | Hx : _ /\ _ |- _ => destruct Hx
         | Hx : _ \/ _ |- _ => destruct Hx
         | Hx : Some _ = Some _ |- _ => injection Hx as <-
         end.

Ltac use_service_run :=
  try match goal with
      | Hs : findOrCreateUserByEmail _ _ = _ |- _ =>
          rewrite Hs in *; cbn [fst] in *
      end.

Ltac table_row :=
  split;
  [ let Hx := fresh "Hx" in
    intros Hx;
    first [ discriminate Hx
          | clear Hx;
            first [ now (repeat split; eauto)
                  | now (left; reflexivity)
                  | now (right; left; split)
                  | repeat split; eexists _, _; split; [reflexivity|];
                    use_service_run; reflexivity
                  | right; right; repeat split; eexists _, _;
                    split; [reflexivity|]; use_service_run; reflexivity ] ]
  | let Hx := fresh "Hx" in
    intros Hx;
    first [ reflexivity
          | exfalso; break_hyps; use_service_run; congruence ] ].

(** X10. The decision table of the middleware is exact.  The invalid-path
    401 is answered exactly for paths that match with case ignored but not
    as written; the missing-header 401 exactly for in-scope, non-whitelisted
    paths without a usable header; the 500 exactly when such a path carries
    the header and the service throws; and the request is handed on exactly
    when the path is out of scope, or in scope and whitelisted, or in scope
    with the header and a service call that returned. *)
Theorem middleware_decision_table (req : Request) (env : Env W) :
  let ci := RegExp.test URL_CASE_INSENSITIVE_REGEX (path req) in
  let cs := RegExp.test URL_CASE_SENSITIVE_REGEX (path req) in
  let hdr := truthy (headers req !! "x-forwarded-email") in
  (answers wl req env (Json 401 "Unauthorized Access - Invalid Path Structure") <->
   ci = true /\ cs = false) /\
  (answers wl req env
     (Json 401 "Unauthorized: X-Forwarded-Email header is required") <->
   cs = true /\ isWhitelisted wl req = false /\ hdr = None) /\
  (answers wl req env (Json 500 "Internal Server Error during authentication") <->
   cs = true /\ isWhitelisted wl req = false /\
   exists e err, hdr = Some e /\
                 fst (findOrCreateUserByEmail e (storage env)) = Throw err) /\
  (answers wl req env Next <->
   ci = false \/
   (cs = true /\ isWhitelisted wl req = true) \/
   (cs = true /\ isWhitelisted wl req = false /\
    exists e u, hdr = Some e /\
                fst (findOrCreateUserByEmail e (storage env)) = Return u)).
Proof.
  intros ci cs hdr.
  pose proof (case_sensitive_in_scope (path req)) as Hscope. fold ci cs in Hscope.
  destruct cs eqn:Hcs.
  2:{ destruct ci eqn:Hci.
      - rewrite !(answers_iff req env _ _ _
                    (middleware_case_mismatch wl req env Hci Hcs)).
        clear Hscope. (split; [|split; [|split]]); table_row.
      - rewrite !(answers_iff req env _ _ _
                    (middleware_not_in_scope wl req env Hci)).
        clear Hscope. (split; [|split; [|split]]); table_row. }
  assert (Hci : ci = true) by auto. rewrite Hci. clear Hscope.
  destruct (isWhitelisted wl req) eqn:Hwl.
  { rewrite !(answers_iff req env _ _ _
                (middleware_whitelisted wl req env Hcs Hwl)).
    (split; [|split; [|split]]); table_row. }
  destruct hdr as [e|] eqn:Hhdr.
  2:{ rewrite !(answers_iff req env _ _ _
                  (middleware_no_header wl req env Hcs Hwl Hhdr)).
      (split; [|split; [|split]]); table_row. }
  pose proof (middleware_protected wl req env e Hcs Hwl Hhdr) as Hrun.
  destruct (findOrCreateUserByEmail e (storage env)) as [[u|err] w'] eqn:Hsvc;
    rewrite !(answers_iff req env _ _ _ Hrun); cbn [fst];
    (split; [|split; [|split]]); table_row.
Qed.

End DecisionTable.

(** * Calls that do not overlap *)

Section SerialCalls.
Variable e : string.

Lemma resume_none i (ts : list Task) (db : Db) :
  ts !! i = None -> resume i (ts, db) = (ts, db).
Proof. intros Ht. unfold resume. cbn [fst snd]. now rewrite Ht. Qed.

Lemma resume_some i (ts : list Task) (db : Db) t :
  ts !! i = Some t ->
  resume i (ts, db) = (<[i := fst (task_step t db)]> ts, snd (task_step t db)).
Proof.
  intros Ht. unfold resume. cbn [fst snd]. rewrite Ht.
  now destruct (task_step t db).
Qed.

Lemma resume_twice_calm i sys : calm e sys -> calm e (resume i (resume i sys)).
Proof.
  destruct sys as [ts db]. intros Hcalm.
  destruct (ts !! i) as [t|] eqn:Ht;
    [|now rewrite !(resume_none _ _ _ Ht)].
  assert (Hlt : i < length ts) by now apply lookup_lt_Some in Ht.
  unfold calm in Hcalm. cbn [fst snd] in Hcalm.
  pose proof (Forall_lookup_1 _ _ _ _ Hcalm Ht) as [-> | (u & -> & Hu)].
  - rewrite (resume_some _ _ _ _ Ht).
    cbn [task_step findOneBy Db_Repository]. unfold db_findOneBy.
    destruct (List.find (has_email e) (rows db)) as [u|] eqn:Hfind; cbn [fst snd].
    + rewrite (resume_some _ _ _ (Settled (Return u)))
        by now apply list_lookup_insert_eq.
      cbn [task_step fst snd]. rewrite list_insert_insert_eq.
      unfold calm. cbn [fst snd]. rewrite <- Hfind in Hcalm.
      apply Forall_insert; [exact Hcalm | right; eauto].
    + rewrite (resume_some _ _ _ (AwaitSave e))
        by now apply list_lookup_insert_eq.
      cbn [task_step save Db_Repository]. rewrite (save_miss _ _ Hfind).
      cbn [fst snd]. rewrite list_insert_insert_eq.
      assert (Hnow : List.find (has_email e) (rows (after_insert e db)) =
                     Some (inserted_row e db)).
      { cbn [rows after_insert]. apply find_present; [|reflexivity].
        now apply find_none_absent. }
      unfold calm. cbn [fst snd].
      apply Forall_insert; [|right; eauto].
      eapply Forall_impl; [exact Hcalm|]. cbn beta.
      intros t [-> | (u & _ & Hu)]; [now left | discriminate Hu].
  - rewrite (resume_some _ _ _ _ Ht). cbn [task_step fst snd].
    rewrite list_insert_id by exact Ht.
    rewrite (resume_some _ _ _ _ Ht). cbn [task_step fst snd].
    now rewrite list_insert_id by exact Ht.
Qed.

Lemma run_schedule_serial_calm order : forall sys,
  calm e sys -> calm e (run_schedule (serial order) sys).
Proof.
  induction order as [|i order IH]; intros sys Hcalm; [exact Hcalm|].
  cbn [serial flat_map app run_schedule fold_left].
  apply IH. now apply resume_twice_calm.
Qed.

Lemma count_occ_serial order j :
  In j order -> 2 <= count_occ Nat.eq_dec (serial order) j.
Proof.
  induction order as [|i order IH]; intros Hin; [destruct Hin|].
  cbn [serial flat_map app count_occ].
  destruct Hin as [->|Hin].
  - destruct (Nat.eq_dec j j); [lia | congruence].
  - specialize (IH Hin). unfold serial in IH.
    destruct (Nat.eq_dec i j); lia.
Qed.

(** X11. Calls that do not overlap never meet the unique constraint: when
    the calls for one email run one after another, each through both of its
    [await]s before the next starts, then from any table no call is
    rejected -- a call is still to start or has returned the row that holds
    the email -- and once every call had its turn, all of them have returned
    that same row. *)
Theorem serial_calls_all_return (db : Db) (n : nat) (order : list nat) :
  let sys := run_schedule (serial order) (replicate n (AwaitFindOneBy e), db) in
  (forall j t, fst sys !! j = Some t ->
     t = AwaitFindOneBy e \/
     exists u, t = Settled (Return u) /\
               List.find (has_email e) (rows (snd sys)) = Some u) /\
  ((forall j, j < n -> In j order) ->
   forall j t, fst sys !! j = Some t ->
     exists u, t = Settled (Return u) /\
               List.find (has_email e) (rows (snd sys)) = Some u).
Proof.
  intros sys.
  assert (Hcalm : calm e sys).
  { apply run_schedule_serial_calm. unfold calm. cbn [fst].
    apply Forall_replicate. now left. }
  assert (Hall : forall j t, fst sys !! j = Some t ->
            t = AwaitFindOneBy e \/
            exists u, t = Settled (Return u) /\
                      List.find (has_email e) (rows (snd sys)) = Some u).
  { intros j t Hj. exact (Forall_lookup_1 _ _ _ _ Hcalm Hj). }
  split; [exact Hall|].
  intros Hturn j t Hj.
  assert (Hsettled : forallb settled (fst sys) = true).
  { apply run_schedule_settles. cbn [fst]. rewrite length_replicate.
    intros k Hk. now apply count_occ_serial, Hturn. }
  destruct (Hall j t Hj) as [-> | Hret]; [|exact Hret].
  rewrite forallb_forall in Hsettled.
  apply list_elem_of_lookup_2, list_elem_of_In, Hsettled in Hj. discriminate Hj.
Qed.

End SerialCalls.

Lemma stopApp_after_broken_queue_setup_witness :
  let p := snd (Lifecycle.initDatabase broken_queue_behaviour queue_env "queue"
                  {| Lifecycle.this := Lifecycle.new_app; Lifecycle.log := [] |}) in
  Lifecycle.stopApp broken_queue_behaviour (fun _ => 0) p =
    (Lifecycle.Ok tt,
     {| Lifecycle.this := Lifecycle.this p;
        Lifecycle.log :=
          Lifecycle.log p ++
          [Lifecycle.Invoked Lifecycle.Telemetry_flush;
           Lifecycle.LoggerError "❌[server]: Flowise Server shut down error: "
             (Lifecycle.TypeError
                "Cannot read properties of undefined (reading 'disconnect')")] |}).
Proof.
  intros p.
  apply (stopApp_after_broken_queue_setup broken_queue_behaviour (fun _ => 0) p);
    [reflexivity | reflexivity | reflexivity | intros e; discriminate].
Defined.

Lemma start_listens_after_config_witness :
  fst (Lifecycle.start database_down_behaviour queue_env "queue" false
         (fun _ => "Prometheus")
         {| Lifecycle.serverApp := None; Lifecycle.events := [] |}) =
    Lifecycle.Raise
      (Lifecycle.TypeError
         "Cannot read properties of undefined (reading 'initializeSSO')").
Proof.
  apply (start_listens_after_config database_down_behaviour queue_env "queue" false
           (fun _ => "Prometheus")
           {| Lifecycle.serverApp := None; Lifecycle.events := [] |}).
  - reflexivity.
  - intros e. discriminate.
  - intros e. discriminate.
  - intros op Hop. destruct op; try discriminate Hop; reflexivity.
Defined.

